(** * The application builder of kubevela: template loader and resource assembly

    Shallow embedding of
    [pkg/controller/core.oam.dev/v1alpha2/application/builder/build.go].

    The file has two halves, as the Go file has:
    - the [loader], which keeps a map from fragment names to parsed CUE files
      and a latched error, and whose [Complete] hands the files to the CUE
      engine and validates the result;
    - the [builder], which walks the workloads of an application and
      assembles the [ApplicationConfiguration] and the list of [Component]s.

    Everything the Go file imports (the CUE parser and engine,
    [encoding/json], the [parser] and [process] packages, the API types'
    group-version-kind constants) is a field of the classes [Libraries] and
    [Packages]. *)

From Stdlib Require Import String Ascii List.
From stdpp Require Import base option list gmap strings fin_maps.

Local Open Scope string_scope.
Local Open Scope list_scope.

(** ** Go errors

    [E] is the type of the errors that come from outside this file. The file
    itself makes errors in two ways: [errors.Errorf] and
    [errors.WithMessagef]. *)

Inductive goerror (E : Type) : Type :=
| Foreign (e : E)
| Errorf (msg : string)
| WithMessage (cause : goerror E) (msg : string).

Arguments Foreign {E} e.
Arguments Errorf {E} msg.
Arguments WithMessage {E} cause msg.

(** [err.Error()]: [WithMessage] prints its message, a colon and the cause. *)
Fixpoint errorText {E} (text : E → string) (e : goerror E) : string :=
  match e with
  | Foreign x => text x
  | Errorf msg => msg
  | WithMessage cause msg => msg +:+ ": " +:+ errorText text cause
  end.

(** ** Calls to the CUE parser, recorded

    The loader's methods are functions from loaders to loaders that also
    report which calls of [cueparser.ParseFile] they made, as a list of
    (file name, source text). *)

Definition ParseCall : Type := string * string.

Definition Traced (A : Type) : Type := A * list ParseCall.

Definition tret {A} (a : A) : Traced A := (a, []).

Definition tbind {A B} (m : Traced A) (k : A → Traced B) : Traced B :=
  let r := k (fst m) in (fst r, snd m ++ snd r).

Notation "'call' x ':=' m 'in' k" := (tbind m (fun x => k))
  (at level 10, x name, m at level 100, k at level 200).

(** The message formats of the four failure sites of the loader. *)

Definition parseErrorMsg (key : string) : string :=
  "loader parse " +:+ key +:+ " error".

Definition templateErrorMsg : string := "loader parse template error".

Definition addSyntaxMsg (fname : string) : string :=
  "loader AddSyntax " +:+ fname.

Definition validateMsg : string := "loader cue-instance validate".

(** ** What the file imports from libraries

    The CUE parser and engine, [encoding/json] and the Kubernetes object type
    are an interface; the loader and the builder are written against it. *)

Class Libraries : Type := {
  (** errors made outside this file *)
  Err : Type;
  (** [*ast.File], and [cueparser.ParseFile name src], which returns a file
      and possibly an error *)
  File : Type;
  ParseFile : string → string → File * option Err;
  (** [interface{}] values given as context or parameters, and
      [json.Marshal] *)
  Value : Type;
  jsonMarshal : Value → Err + string;
  (** [*build.Instance]: [build.NewContext().NewInstance("", nil)] and
      [AddSyntax] *)
  BuildInstance : Type;
  NewInstance : BuildInstance;
  AddSyntax : BuildInstance → File → Err + BuildInstance;
  (** [*cue.Instance]: [cue.Build] and
      [inst.Value().Validate(cue.Concrete(true))] *)
  Instance : Type;
  cueBuild : list BuildInstance → list Instance;
  Validate : Instance → option Err;
  (** [runtime.Object]: a rendered Kubernetes object *)
  Object : Type
}.

Abbreviation error := (goerror Err).

Section Loader.

Context `{Libraries}.

(** *** The loader *)

Record loader : Type := Loader {
  files : gmap string File;
  err : option error
}.

Definition setErr (l : loader) (e : error) : loader :=
  {| files := files l; err := Some e |}.

Definition setFile (l : loader) (key : string) (f : File) : loader :=
  {| files := <[key := f]> (files l); err := err l |}.

Definition parseFile (name src : string) : Traced (File * option Err) :=
  (ParseFile name src, [(name, src)]).

(** [marshal]: the error of [json.Marshal] is dropped; on failure the body
    is the nil byte slice, printed as the empty string. *)
Definition marshal (key : string) (v : Value) : string :=
  let _body := match jsonMarshal v with
               | inr b => b
               | inl _ => ""
               end in
  key +:+ ": " +:+ _body.

Definition newLoader (ctx : Value) : Traced loader :=
  let l := {| files := ∅; err := None |} in
  let key := "context" in
  call r := parseFile key (marshal key ctx) in
  let l := match snd r with
           | Some _ => setErr l (Errorf (parseErrorMsg key))
           | None => l
           end in
  tret (setFile l key (fst r)).

Definition WithTemplate (raw : string) (l : loader) : Traced loader :=
  match err l with
  | Some _ => tret l
  | None =>
      call r := parseFile "-" raw in
      let l := match snd r with
               | Some _ => setErr l (Errorf templateErrorMsg)
               | None => l
               end in
      tret (setFile l "-" (fst r))
  end.

Definition WithContext (ctx : Value) (l : loader) : Traced loader :=
  match err l with
  | Some _ => tret l
  | None =>
      let key := "context" in
      call r := parseFile key (marshal key ctx) in
      let l := match snd r with
               | Some _ => setErr l (Errorf (parseErrorMsg key))
               | None => l
               end in
      tret (setFile l key (fst r))
  end.

Definition WithParams (params : Value) (l : loader) : Traced loader :=
  match err l with
  | Some _ => tret l
  | None =>
      let key := "parameter" in
      call r := parseFile key (marshal key params) in
      let l := match snd r with
               | Some _ => setErr l (Errorf (parseErrorMsg key))
               | None => l
               end in
      tret (setFile l key (fst r))
  end.

(** The first loop of [Complete]: [AddSyntax] on each file in turn, leaving
    at the first failure with the name of the file. *)
Fixpoint addFiles (bi : BuildInstance) (kvs : list (string * File))
  : error + BuildInstance :=
  match kvs with
  | [] => inr bi
  | (fname, f) :: rest =>
      match AddSyntax bi f with
      | inl e => inl (WithMessage (Foreign e) (addSyntaxMsg fname))
      | inr bi' => addFiles bi' rest
      end
  end.

(** The second loop of [Complete]: validate each instance, remember the
    last one. *)
Fixpoint validateAll (insts : list Instance) (ret : option Instance)
  : error + option Instance :=
  match insts with
  | [] => inr ret
  | inst :: rest =>
      match Validate inst with
      | Some e => inl (WithMessage (Foreign e) validateMsg)
      | None => validateAll rest (Some inst)
      end
  end.

(** [Complete] ranges over the Go map [l.files].  Go visits each entry of a
    map once, in an order it does not fix; [CompleteIn kvs l] is the body of
    [Complete] when the range statement visits the entries in the order
    [kvs], and [Completes l r] says that some run of [Complete] returns
    [r].  A nil [*cue.Instance] is [None]. *)
Definition CompleteIn (kvs : list (string * File)) (l : loader)
  : error + option Instance :=
  match err l with
  | Some e => inl e
  | None =>
      match addFiles NewInstance kvs with
      | inl e => inl e
      | inr bi => validateAll (cueBuild [bi]) None
      end
  end.

Definition rangeOrder (m : gmap string File) (kvs : list (string * File))
  : Prop :=
  kvs ≡ₚ map_to_list m.

Definition Completes (l : loader) (r : error + option Instance) : Prop :=
  ∃ kvs, rangeOrder (files l) kvs ∧ CompleteIn kvs l = r.

End Loader.

(** ** The API types of [apis/core.oam.dev/v1alpha2]

    Of each type, the fields this file reads or writes. A nil map is [None]. *)

Record GroupVersionKind : Type := GVK {
  Group : string;
  Version : string;
  Kind : string
}.

Section Types.

Context `{Libraries}.

(** [v1alpha2.Component]: object metadata, type metadata and
    [Spec.Workload.Object]. *)
Record Component : Type := mkComponent {
  compName : string;
  compNamespace : string;
  compLabels : option (gmap string string);
  compGVK : GroupVersionKind;
  compWorkload : option Object
}.

(** [v1alpha2.ComponentTrait], with [Trait.Object]. *)
Record ComponentTrait : Type := mkComponentTrait {
  traitObject : option Object
}.

(** [v1alpha2.ApplicationConfigurationComponent]. *)
Record ApplicationConfigurationComponent : Type := mkACComponent {
  ComponentName : string;
  Traits : list ComponentTrait
}.

(** [v1alpha2.ApplicationConfiguration]. *)
Record ApplicationConfiguration : Type := mkAppConfig {
  acName : string;
  acNamespace : string;
  acLabels : option (gmap string string);
  acGVK : GroupVersionKind;
  acComponents : list ApplicationConfigurationComponent
}.

End Types.

(** ** What the file imports from the repository

    The group-version-kind constants of the API package, the evaluation
    context of [pkg/dsl/process] and the workloads and traits of the [parser]
    package. A method that writes into the evaluation context and returns an
    error is a function from the context to an error or the context written
    to; the builder drops the context when it gets the error. *)

Class Packages `{Libraries} : Type := {
  ComponentGroupVersionKind : GroupVersionKind;
  ApplicationConfigurationGroupVersionKind : GroupVersionKind;
  (** [model.Instance] and its method [Object(nil)] *)
  ModelInstance : Type;
  instObject : ModelInstance → error + Object;
  (** [process.Context], [process.NewContext] and [Output] *)
  ProcessContext : Type;
  NewContext : string → ProcessContext;
  Output : ProcessContext → ModelInstance * list ModelInstance;
  (** [parser.Workload] and [parser.Trait] *)
  Workload : Type;
  Trait : Type;
  wlName : Workload → string;
  wlTraits : Workload → list Trait;
  wlEval : Workload → loader → error + Component;
  wlEvalContext : Workload → ProcessContext → error + ProcessContext;
  trEval : Trait → loader → error + list ComponentTrait;
  trEvalContext : Trait → ProcessContext → error + ProcessContext;
  (** the Go value [map[string]string{"name": n}] *)
  nameContext : string → Value
}.

(** [OamApplicationLabel] is application's metadata label. *)
Definition OamApplicationLabel : string := "application.oam.dev".

Definition zeroGVK : GroupVersionKind := GVK "" "" "".

(** [labels[key] = v] after [if labels == nil { labels = map{} }]. *)
Definition setLabel (labels : option (gmap string string)) (key v : string)
  : option (gmap string string) :=
  let m := match labels with
           | None => ∅
           | Some m => m
           end in
  Some (<[key := v]> m).

Section Builder.

Context `{Packages}.

(** [parser.Appfile], through its methods [Name()] and [Services()]. *)
Record Appfile : Type := mkAppfile {
  Name : string;
  Services : list Workload
}.

Record builder : Type := mkBuilder {
  app : Appfile
}.

(** What the Go functions return: the configuration, the components and the
    error, each of which can be nil. *)
Definition Result : Type :=
  option ApplicationConfiguration * option (list Component) * option error.

(** The first lines of [Complete] and of [CompleteWithContext]. *)
Definition newAppConfig (b : builder) (ns : string) : ApplicationConfiguration :=
  {| acName := Name (app b);
     acNamespace := ns;
     acLabels := setLabel None OamApplicationLabel (Name (app b));
     acGVK := ApplicationConfigurationGroupVersionKind;
     acComponents := [] |}.

Definition appendComponent (appconfig : ApplicationConfiguration)
    (comp : ApplicationConfigurationComponent) : ApplicationConfiguration :=
  {| acName := acName appconfig;
     acNamespace := acNamespace appconfig;
     acLabels := acLabels appconfig;
     acGVK := acGVK appconfig;
     acComponents := acComponents appconfig ++ [comp] |}.

(** Assignments to the fields of a component. *)
Definition setName (c : Component) (n : string) : Component :=
  {| compName := n;
     compNamespace := compNamespace c;
     compLabels := compLabels c;
     compGVK := compGVK c;
     compWorkload := compWorkload c |}.

Definition setNamespace (c : Component) (ns : string) : Component :=
  {| compName := compName c;
     compNamespace := ns;
     compLabels := compLabels c;
     compGVK := compGVK c;
     compWorkload := compWorkload c |}.

Definition setLabels (c : Component) (key v : string) : Component :=
  {| compName := compName c;
     compNamespace := compNamespace c;
     compLabels := setLabel (compLabels c) key v;
     compGVK := compGVK c;
     compWorkload := compWorkload c |}.

Definition SetGroupVersionKind (c : Component) (gvk : GroupVersionKind)
  : Component :=
  {| compName := compName c;
     compNamespace := compNamespace c;
     compLabels := compLabels c;
     compGVK := gvk;
     compWorkload := compWorkload c |}.

(** *** The stateless strategy: [Complete] *)

(** The loop over [wl.Traits()]. *)
Fixpoint evalTraits (compCtx : Value) (trs : list Trait)
    (comp : ApplicationConfigurationComponent)
  : error + ApplicationConfigurationComponent :=
  match trs with
  | [] => inr comp
  | trait :: rest =>
      match trEval trait (fst (newLoader compCtx)) with
      | inl e => inl e
      | inr ctraits =>
          evalTraits compCtx rest
            {| ComponentName := ComponentName comp;
               Traits := Traits comp ++ ctraits |}
      end
  end.

(** The loop over [b.app.Services()]. *)
Fixpoint completeLoop (b : builder) (ns : string) (wls : list Workload)
    (appconfig : ApplicationConfiguration) (componets : list Component)
  : Result :=
  match wls with
  | [] => (Some appconfig, Some componets, None)
  | wl :: rest =>
      let compCtx := nameContext (wlName wl) in
      match wlEval wl (fst (newLoader compCtx)) with
      | inl e => (None, None, Some e)
      | inr component =>
          let component := setNamespace component ns in
          let component := setName component (wlName wl) in
          let component :=
            setLabels component OamApplicationLabel (Name (app b)) in
          let component :=
            SetGroupVersionKind component ComponentGroupVersionKind in
          let componets := componets ++ [component] in
          let comp := {| ComponentName := wlName wl; Traits := [] |} in
          match evalTraits compCtx (wlTraits wl) comp with
          | inl e => (None, None, Some e)
          | inr comp =>
              completeLoop b ns rest (appendComponent appconfig comp) componets
          end
      end
  end.

Definition Complete (b : builder) (ns : string) : Result :=
  completeLoop b ns (Services (app b)) (newAppConfig b ns) [].

(** *** The context-accumulating strategy: [CompleteWithContext] *)

(** The loop over [assists] in [generateOAM]. *)
Fixpoint assistTraits (assists : list ModelInstance)
    (traits : list ComponentTrait) : error + list ComponentTrait :=
  match assists with
  | [] => inr traits
  | assist :: rest =>
      match instObject assist with
      | inl e => inl e
      | inr traitRef =>
          assistTraits rest (traits ++ [ {| traitObject := Some traitRef |} ])
      end
  end.

Definition generateOAM (pCtx : ProcessContext)
  : error + (Component * ApplicationConfigurationComponent) :=
  let '(base, assists) := Output pCtx in
  match instObject base with
  | inl e => inl e
  | inr componetWorkload =>
      let component := {| compName := "";
                          compNamespace := "";
                          compLabels := None;
                          compGVK := zeroGVK;
                          compWorkload := Some componetWorkload |} in
      match assistTraits assists [] with
      | inl e => inl e
      | inr traits =>
          inr (component, {| ComponentName := ""; Traits := traits |})
      end
  end.

(** The loop over [wl.Traits()]. *)
Fixpoint evalTraitsContext (trs : list Trait) (pCtx : ProcessContext)
  : error + ProcessContext :=
  match trs with
  | [] => inr pCtx
  | tr :: rest =>
      match trEvalContext tr pCtx with
      | inl e => inl e
      | inr pCtx' => evalTraitsContext rest pCtx'
      end
  end.

(** The body of the loop over [b.app.Services()], up to the two [append]s:
    the component and the binding record of one workload. *)
Definition renderWorkload (b : builder) (ns : string) (wl : Workload)
  : error + (Component * ApplicationConfigurationComponent) :=
  let pCtx := NewContext (wlName wl) in
  match wlEvalContext wl pCtx with
  | inl e => inl e
  | inr pCtx =>
      match evalTraitsContext (wlTraits wl) pCtx with
      | inl e => inl e
      | inr pCtx =>
          match generateOAM pCtx with
          | inl e => inl e
          | inr (comp, acComp) =>
              let comp := setName comp (wlName wl) in
              let acComp := {| ComponentName := compName comp;
                               Traits := Traits acComp |} in
              let comp := setNamespace comp ns in
              let comp :=
                setLabels comp OamApplicationLabel (Name (app b)) in
              let comp :=
                SetGroupVersionKind comp ComponentGroupVersionKind in
              inr (comp, acComp)
          end
      end
  end.

Fixpoint contextLoop (b : builder) (ns : string) (wls : list Workload)
    (appconfig : ApplicationConfiguration) (componets : list Component)
  : Result :=
  match wls with
  | [] => (Some appconfig, Some componets, None)
  | wl :: rest =>
      match renderWorkload b ns wl with
      | inl e => (None, None, Some e)
      | inr (comp, acComp) =>
          contextLoop b ns rest (appendComponent appconfig acComp)
            (componets ++ [comp])
      end
  end.

Definition CompleteWithContext (b : builder) (ns : string) : Result :=
  contextLoop b ns (Services (app b)) (newAppConfig b ns) [].

(** [Build] template to applicationConfig & Component. *)
Definition Build (ns : string) (app : Appfile) : Result :=
  let b := {| app := app |} in
  CompleteWithContext b ns.

End Builder.

(** ** Sequences of calls on a loader *)

Section Calls.

Context `{Libraries}.

Inductive LoaderCall : Type :=
| CallWithTemplate (raw : string)
| CallWithContext (ctx : Value)
| CallWithParams (params : Value).

Definition applyCall (c : LoaderCall) (l : loader) : Traced loader :=
  match c with
  | CallWithTemplate raw => WithTemplate raw l
  | CallWithContext ctx => WithContext ctx l
  | CallWithParams params => WithParams params l
  end.

Fixpoint runCalls (cs : list LoaderCall) (l : loader) : Traced loader :=
  match cs with
  | [] => tret l
  | c :: rest => call l' := applyCall c l in runCalls rest l'
  end.

(** The loaders the package can make: [newLoader], then calls. *)
Definition built (ctx : Value) (cs : list LoaderCall) : loader :=
  fst (runCalls cs (fst (newLoader ctx))).

(** What the error field of such a loader holds: nothing, or the parse error
    of one of the three kinds of fragment. *)
Definition parseLatch (o : option error) : Prop :=
  o = None ∨
  ∃ k, k ∈ ["context"; "parameter"; "template"] ∧
       o = Some (Errorf ("loader parse " +:+ k +:+ " error")).

End Calls.

(** ** Reading an error of the loader

    The stage an error of [Complete] comes from, and the fragment its message
    names, read off the message formats above. *)

Inductive Stage : Type := ParseStage | BuildStage | ValidateStage.

Fixpoint stripPrefix (p s : string) : option string :=
  match p with
  | EmptyString => Some s
  | String a p' =>
      match s with
      | EmptyString => None
      | String b s' => if Ascii.eqb a b then stripPrefix p' s' else None
      end
  end.

Definition classify {E} (e : goerror E) : option (Stage * option string) :=
  match e with
  | Foreign _ => None
  | Errorf msg =>
      if String.eqb msg (parseErrorMsg "context")
      then Some (ParseStage, Some "context")
      else if String.eqb msg (parseErrorMsg "parameter")
      then Some (ParseStage, Some "parameter")
      else if String.eqb msg templateErrorMsg
      then Some (ParseStage, Some "template")
      else None
  | WithMessage _ msg =>
      match stripPrefix "loader AddSyntax " msg with
      | Some fname => Some (BuildStage, Some fname)
      | None =>
          if String.eqb msg validateMsg
          then Some (ValidateStage, None)
          else None
      end
  end.

(** ** The evaluation context, as the builder relies on it *)

Section ContextContract.

Context `{Packages}.

(** Modelled from the spec: the evaluation context of [pkg/dsl/process] and
    the [EvalContext] methods of the [parser] package are not among the
    sources. The context "exposes, after all writes, a primary rendered
    object and an ordered list of auxiliary rendered objects", the
    auxiliaries being "contributed across all traits in trait order": a new
    context has no auxiliaries, evaluating a workload adds none, and
    evaluating a trait [t] on a context [c] appends what the trait renders
    there, [contributed t c], after those already present. *)
Definition ContextAccumulates
    (contributed : Trait → ProcessContext → list ModelInstance) : Prop :=
  (∀ name, snd (Output (NewContext name)) = []) ∧
  (∀ wl c c', wlEvalContext wl c = inr c' →
              snd (Output c') = snd (Output c)) ∧
  (∀ tr c c', trEvalContext tr c = inr c' →
              snd (Output c') = snd (Output c) ++ contributed tr c).

(** What each trait of a list renders, in the order of the list, when they
    are evaluated one after the other from the context [c]. *)
Fixpoint contributions
    (contributed : Trait → ProcessContext → list ModelInstance)
    (trs : list Trait) (c : ProcessContext) : list (list ModelInstance) :=
  match trs with
  | [] => []
  | tr :: rest =>
      match trEvalContext tr c with
      | inl _ => []
      | inr c' => contributed tr c :: contributions contributed rest c'
      end
  end.

(** A workload on which the loop of [CompleteWithContext] leaves with an
    error: its own evaluation fails, or the evaluation of one of its traits
    after the earlier ones succeeded, or the extraction in [generateOAM]. *)
Definition workloadFails (wl : Workload) : Prop :=
  (∃ e, wlEvalContext wl (NewContext (wlName wl)) = inl e) ∨
  (∃ c pre tr post c' e,
      wlEvalContext wl (NewContext (wlName wl)) = inr c ∧
      wlTraits wl = pre ++ tr :: post ∧
      evalTraitsContext pre c = inr c' ∧
      trEvalContext tr c' = inl e) ∨
  (∃ c c' e,
      wlEvalContext wl (NewContext (wlName wl)) = inr c ∧
      evalTraitsContext (wlTraits wl) c = inr c' ∧
      generateOAM c' = inl e).

(** The stamp of a workload on a component: name, namespace, kind and the
    application label. *)
Definition stamped (b : builder) (ns : string) (wl : Workload)
    (c : Component) : Prop :=
  compName c = wlName wl ∧
  compNamespace c = ns ∧
  compGVK c = ComponentGroupVersionKind ∧
  ∃ m, compLabels c = Some m ∧
       m !! OamApplicationLabel = Some (Name (app b)).

(** The value of the application label of a component, if it has one. *)
Definition applicationLabel (c : Component) : option string :=
  match compLabels c with
  | Some m => m !! OamApplicationLabel
  | None => None
  end.

End ContextContract.

(** ** A small engine and a small application, to run the code on

    An instance of [Libraries]: sources are an optional [package] line and a
    body; a body that ends in a field without a value does not parse;
    [AddSyntax] keeps the package name of the first file and refuses a file
    with another one; an instance is concrete unless a body refers to
    [parameter.] and no fragment defines [parameter]. *)

Record toyFile : Type := mkToyFile {
  pkgName : string;
  body : string
}.

Record toyBuild : Type := mkToyBuild {
  hasName : bool;
  PkgName : string;
  Files : list toyFile
}.

Definition newline : string := String (ascii_of_nat 10) EmptyString.

Definition contains (sub s : string) : bool :=
  match String.index 0 sub s with
  | Some _ => true
  | None => false
  end.

Definition endsWith (suffix s : string) : bool :=
  String.eqb
    (String.substring (String.length s - String.length suffix)
       (String.length suffix) s)
    suffix
  && (String.length suffix <=? String.length s)%nat.

Definition splitPackage (src : string) : string * string :=
  match stripPrefix "package " src with
  | None => ("", src)
  | Some rest =>
      match String.index 0 newline rest with
      | None => (rest, "")
      | Some n =>
          (String.substring 0 n rest,
           String.substring (S n) (String.length rest - S n) rest)
      end
  end.

Definition toyParseFile (name src : string) : toyFile * option string :=
  let '(p, b) := splitPackage src in
  (mkToyFile p b,
   if endsWith ": " b then Some "expected operand, found 'EOF'" else None).

Definition toyMarshal (v : option string) : string + string :=
  match v with
  | Some json => inr json
  | None => inl "json: unsupported type"
  end.

Definition toyAddSyntax (bi : toyBuild) (f : toyFile) : string + toyBuild :=
  if hasName bi
  then if String.eqb (pkgName f) (PkgName bi)
       then inr (mkToyBuild true (PkgName bi) (Files bi ++ [f]))
       else inl "package name conflicts with previous package name"
  else inr (mkToyBuild true (pkgName f) (Files bi ++ [f])).

Definition toyValidate (inst : list toyFile) : option string :=
  if existsb (fun f => contains "parameter." (body f)) inst
     && negb (existsb (fun f => contains "parameter: " (body f)) inst)
  then Some "incomplete value"
  else None.

Definition toyLibraries : Libraries :=
  {| Err := string;
     File := toyFile;
     ParseFile := toyParseFile;
     Value := option string;
     jsonMarshal := toyMarshal;
     BuildInstance := toyBuild;
     NewInstance := mkToyBuild false "" [];
     AddSyntax := toyAddSyntax;
     Instance := list toyFile;
     cueBuild := map Files;
     Validate := toyValidate;
     Object := string |}.


(** An instance of [Packages] over the small engine. A context holds the
    base object, if one was written, and the auxiliaries; a trait emits
    auxiliaries, or patches the base object, or fails. *)

Record toyContext : Type := mkToyContext {
  pcName : string;
  pcBase : option string;
  pcAssists : list (option string)
}.

Inductive toyTrait : Type :=
| Emit (outs : list string)
| Patch (suffix : string)
| Broken.

Record toyWorkload : Type := mkToyWorkload {
  twName : string;
  twBody : option string;
  twTraits : list toyTrait
}.

Definition toyObject (i : option string) : goerror string + string :=
  match i with
  | Some o => inr o
  | None => inl (Foreign "no object")
  end.

Definition toyWlEvalContext (wl : toyWorkload) (c : toyContext)
  : goerror string + toyContext :=
  match twBody wl with
  | Some o => inr (mkToyContext (pcName c) (Some o) (pcAssists c))
  | None => inl (Foreign "workload does not render")
  end.

Definition toyTrEvalContext (tr : toyTrait) (c : toyContext)
  : goerror string + toyContext :=
  match tr with
  | Emit outs =>
      inr (mkToyContext (pcName c) (pcBase c) (pcAssists c ++ map Some outs))
  | Patch s =>
      inr (mkToyContext (pcName c) ((fun o => o +:+ s) <$> pcBase c)
             (pcAssists c))
  | Broken => inl (Foreign "trait does not render")
  end.

Definition toyWlEval (wl : toyWorkload) (l : @loader toyLibraries)
  : goerror string + @Component toyLibraries :=
  match twBody wl with
  | Some o => inr (@mkComponent toyLibraries "" "" None zeroGVK (Some o))
  | None => inl (Foreign "workload does not render")
  end.

Definition toyTrEval (tr : toyTrait) (l : @loader toyLibraries)
  : goerror string + list (@ComponentTrait toyLibraries) :=
  match tr with
  | Emit outs =>
      inr (map (fun o => @mkComponentTrait toyLibraries (Some o)) outs)
  | Patch _ => inr []
  | Broken => inl (Foreign "trait does not render")
  end.

Definition toyPackages : @Packages toyLibraries :=
  @Build_Packages toyLibraries
    (GVK "core.oam.dev" "v1alpha2" "Component")
    (GVK "core.oam.dev" "v1alpha2" "ApplicationConfiguration")
    (option string) toyObject
    toyContext (fun name => mkToyContext name None [])
    (fun c => (pcBase c, pcAssists c))
    toyWorkload toyTrait twName twTraits
    toyWlEval toyWlEvalContext toyTrEval toyTrEvalContext
    (fun n => Some ("{name: " +:+ n +:+ "}")).

Definition toyContributed (tr : toyTrait) (c : toyContext)
  : list (option string) :=
  match tr with
  | Emit outs => map Some outs
  | Patch _ => []
  | Broken => []
  end.

(** The application [web] of the scenarios: one workload [front]. *)
Definition front (traits : list toyTrait) : toyWorkload :=
  mkToyWorkload "front" (Some "{name: front, replicas: 3}") traits.

Definition web (traits : list toyTrait) : @Appfile toyLibraries toyPackages :=
  @mkAppfile toyLibraries toyPackages "web" [front traits].


(** Loaders on the small engine: one with the context of [front] only, one
    whose template has a package clause, one whose template refers to a
    parameter that no fragment defines. *)
Definition frontLoader : @loader toyLibraries :=
  fst (@newLoader toyLibraries (Some "{name: front}")).

Definition packagedLoader : @loader toyLibraries :=
  @built toyLibraries (Some "{name: front}")
    [@CallWithTemplate toyLibraries
       ("package p" +:+ newline +:+ "output: {replicas: 1}")].

Definition unboundLoader : @loader toyLibraries :=
  @built toyLibraries (Some "{name: front}")
    [@CallWithTemplate toyLibraries "output: {replicas: parameter.n}"].


(** An application of three workloads, the second with a trait that fails. *)
Definition shop : @Appfile toyLibraries toyPackages :=
  @mkAppfile toyLibraries toyPackages "shop"
    [mkToyWorkload "A" (Some "{name: A}") [Emit ["t1"]; Emit ["t2"]];
     mkToyWorkload "B" (Some "{name: B}") [Emit ["t1"]; Broken];
     mkToyWorkload "C" (Some "{name: C}") [Emit ["t1"]; Emit ["t2"]]].

(** The same application, where the first trait of [B] renders two objects
    and the second patches the base object. *)
Definition shop_ok : @Appfile toyLibraries toyPackages :=
  @mkAppfile toyLibraries toyPackages "shop"
    [mkToyWorkload "A" (Some "{name: A}") [Emit ["t1"]; Emit ["t2"]];
     mkToyWorkload "B" (Some "{name: B}") [Emit ["t1"; "t1b"]; Patch "!"];
     mkToyWorkload "C" (Some "{name: C}") [Emit ["t1"]; Emit ["t2"]]].

(** ** More vocabulary for the loader and the builder *)

Section CallVocabulary.

Context `{Libraries}.

(** The key under which a call stores its file, the text it hands to the
    parser, and the error it latches when the parser rejects the text. *)
Definition callKey (c : LoaderCall) : string :=
  match c with
  | CallWithTemplate _ => "-"
  | CallWithContext _ => "context"
  | CallWithParams _ => "parameter"
  end.

Definition callSource (c : LoaderCall) : string :=
  match c with
  | CallWithTemplate raw => raw
  | CallWithContext ctx => marshal "context" ctx
  | CallWithParams params => marshal "parameter" params
  end.

Definition callError (c : LoaderCall) : error :=
  match c with
  | CallWithTemplate _ => Errorf templateErrorMsg
  | CallWithContext _ => Errorf (parseErrorMsg "context")
  | CallWithParams _ => Errorf (parseErrorMsg "parameter")
  end.

Definition callEntry (c : LoaderCall) : ParseCall := (callKey c, callSource c).

Definition callParses (c : LoaderCall) : Prop :=
  snd (ParseFile (callKey c) (callSource c)) = None.

(** The text of the last call of a sequence that writes the key [k]. *)
Fixpoint lastSource (k : string) (cs : list LoaderCall) : option string :=
  match cs with
  | [] => None
  | c :: rest =>
      match lastSource k rest with
      | Some src => Some src
      | None => if decide (callKey c = k) then Some (callSource c) else None
      end
  end.

End CallVocabulary.

Section BuilderVocabulary.

Context `{Packages}.

(** [workloadFails], with the error. *)
Definition workloadFailsWith (wl : Workload) (e : error) : Prop :=
  wlEvalContext wl (NewContext (wlName wl)) = inl e ∨
  (∃ c pre tr post c',
      wlEvalContext wl (NewContext (wlName wl)) = inr c ∧
      wlTraits wl = pre ++ tr :: post ∧
      evalTraitsContext pre c = inr c' ∧
      trEvalContext tr c' = inl e) ∨
  (∃ c c',
      wlEvalContext wl (NewContext (wlName wl)) = inr c ∧
      evalTraitsContext (wlTraits wl) c = inr c' ∧
      generateOAM c' = inl e).

(** The loader that [Complete] hands to [Eval], for a workload and for each
    of its traits. *)
Definition evalLoader (wl : Workload) : loader :=
  fst (newLoader (nameContext (wlName wl))).

(** A workload on which the loop of [Complete] leaves with the error [e]:
    its [Eval] fails, or the [Eval] of one of its traits after the earlier
    ones succeeded. *)
Definition statelessFailsWith (wl : Workload) (e : error) : Prop :=
  wlEval wl (evalLoader wl) = inl e ∨
  ((∃ component, wlEval wl (evalLoader wl) = inr component) ∧
   ∃ pre tr post,
     wlTraits wl = pre ++ tr :: post ∧
     Forall (fun t => ∃ ts, trEval t (evalLoader wl) = inr ts) pre ∧
     trEval tr (evalLoader wl) = inl e).

(** The value of a label of a component, if it has one. *)
Definition labelOf (c : Component) (k : string) : option string :=
  match compLabels c with
  | Some m => m !! k
  | None => None
  end.

(** A result with another namespace on the configuration and on every
    component. *)
Definition withNamespace (ns : string) (r : Result) : Result :=
  let '(ac, comps, e) := r in
  (option_map
     (fun ac => {| acName := acName ac;
                   acNamespace := ns;
                   acLabels := acLabels ac;
                   acGVK := acGVK ac;
                   acComponents := acComponents ac |}) ac,
   option_map (map (fun c => setNamespace c ns)) comps,
   e).

(** Two results put together: the first error, or the configuration of the
    first with the binding records of both, and the components of both. *)
Definition joinResults (r1 r2 : Result) : Result :=
  match r1 with
  | (Some ac1, Some cs1, None) =>
      match r2 with
      | (Some ac2, Some cs2, None) =>
          (Some {| acName := acName ac1;
                   acNamespace := acNamespace ac1;
                   acLabels := acLabels ac1;
                   acGVK := acGVK ac1;
                   acComponents := acComponents ac1 ++ acComponents ac2 |},
           Some (cs1 ++ cs2), None)
      | _ => r2
      end
  | _ => r1
  end.

(** The body of the loop of [Complete], up to the two [append]s: the
    component and the binding record of one workload. *)
Definition evalStateless (b : builder) (ns : string) (wl : Workload)
  : error + (Component * ApplicationConfigurationComponent) :=
  let compCtx := nameContext (wlName wl) in
  match wlEval wl (fst (newLoader compCtx)) with
  | inl e => inl e
  | inr component =>
      let component := setNamespace component ns in
      let component := setName component (wlName wl) in
      let component :=
        setLabels component OamApplicationLabel (Name (app b)) in
      let component :=
        SetGroupVersionKind component ComponentGroupVersionKind in
      let comp := {| ComponentName := wlName wl; Traits := [] |} in
      match evalTraits compCtx (wlTraits wl) comp with
      | inl e => inl e
      | inr comp => inr (component, comp)
      end
  end.

(** A loop body on each workload in turn, up to the first error. *)
Fixpoint mapBody
    (body : Workload → error + (Component * ApplicationConfigurationComponent))
    (wls : list Workload)
  : error + list (Component * ApplicationConfigurationComponent) :=
  match wls with
  | [] => inr []
  | wl :: rest =>
      match body wl with
      | inl e => inl e
      | inr r =>
          match mapBody body rest with
          | inl e => inl e
          | inr rs => inr (r :: rs)
          end
      end
  end.

(** The result of a loop that started from the configuration [ac] and the
    components [comps]. *)
Definition finish (ac : ApplicationConfiguration) (comps : list Component)
    (r : error + list (Component * ApplicationConfigurationComponent))
  : Result :=
  match r with
  | inl e => (None, None, Some e)
  | inr rs =>
      (Some {| acName := acName ac;
               acNamespace := acNamespace ac;
               acLabels := acLabels ac;
               acGVK := acGVK ac;
               acComponents := acComponents ac ++ map snd rs |},
       Some (comps ++ map fst rs), None)
  end.

End BuilderVocabulary.

(** * Properties of the loader *)

Section LoaderTheory.

Context `{Libraries}.

Implicit Types (l : loader) (e : error) (kvs : list (string * File)).

(** ** The latch *)

Lemma WithTemplate_latched raw l e :
  err l = Some e → WithTemplate raw l = (l, []).
Proof. intros He. unfold WithTemplate. now rewrite He. Qed.

Lemma WithContext_latched ctx l e :
  err l = Some e → WithContext ctx l = (l, []).
Proof. intros He. unfold WithContext. now rewrite He. Qed.

Lemma WithParams_latched params l e :
  err l = Some e → WithParams params l = (l, []).
Proof. intros He. unfold WithParams. now rewrite He. Qed.

Lemma applyCall_latched c l e :
  err l = Some e → applyCall c l = (l, []).
Proof.
  destruct c; simpl;
    eauto using WithTemplate_latched, WithContext_latched, WithParams_latched.
Qed.

Lemma runCalls_latched cs l e :
  err l = Some e → runCalls cs l = (l, []).
Proof.
  intros He. induction cs as [|c cs IH]; [reflexivity|].
  simpl. unfold tbind. rewrite (applyCall_latched c l e He). simpl.
  now rewrite IH.
Qed.

Lemma CompleteIn_latched kvs l e :
  err l = Some e → CompleteIn kvs l = inl e.
Proof. intros He. unfold CompleteIn. now rewrite He. Qed.

(** Where the latch is set: each of the four parse sites, on a parse error. *)
Lemma newLoader_err ctx :
  err (fst (newLoader ctx)) =
  match snd (ParseFile "context" (marshal "context" ctx)) with
  | Some _ => Some (Errorf "loader parse context error")
  | None => None
  end.
Proof.
  unfold newLoader, tbind, parseFile. simpl.
  now destruct (snd (ParseFile _ _)).
Qed.

Lemma WithTemplate_err raw l :
  err l = None →
  err (fst (WithTemplate raw l)) =
  match snd (ParseFile "-" raw) with
  | Some _ => Some (Errorf "loader parse template error")
  | None => None
  end.
Proof.
  intros He. unfold WithTemplate, tbind, parseFile. rewrite He. simpl.
  now destruct (snd (ParseFile _ _)).
Qed.

Lemma WithContext_err ctx l :
  err l = None →
  err (fst (WithContext ctx l)) =
  match snd (ParseFile "context" (marshal "context" ctx)) with
  | Some _ => Some (Errorf "loader parse context error")
  | None => None
  end.
Proof.
  intros He. unfold WithContext, tbind, parseFile. rewrite He. simpl.
  now destruct (snd (ParseFile _ _)).
Qed.

Lemma WithParams_err params l :
  err l = None →
  err (fst (WithParams params l)) =
  match snd (ParseFile "parameter" (marshal "parameter" params)) with
  | Some _ => Some (Errorf "loader parse parameter error")
  | None => None
  end.
Proof.
  intros He. unfold WithParams, tbind, parseFile. rewrite He. simpl.
  now destruct (snd (ParseFile _ _)).
Qed.

(** C4. Once an error is latched in a loader, every sequence of
    [WithTemplate], [WithContext] and [WithParams] calls leaves the loader
    as it is, latched error included, and calls the parser not once; and
    [Complete] returns the latched error, whatever the files and the order
    in which it would have visited them. *)
Theorem sticky_first_error l e (cs : list LoaderCall) kvs :
  err l = Some e →
  runCalls cs l = (l, []) ∧
  err (fst (runCalls cs l)) = Some e ∧
  CompleteIn kvs (fst (runCalls cs l)) = inl e.
Proof.
  intros He. rewrite (runCalls_latched cs l e He). simpl.
  auto using CompleteIn_latched.
Qed.

(** ** Replacing a fragment *)

Lemma setFile_twice l key f g :
  setFile (setFile l key f) key g = setFile l key g.
Proof. unfold setFile. simpl. now rewrite insert_insert_eq. Qed.

Lemma WithContext_twice l c1 c2 :
  err (fst (WithContext c1 l)) = None →
  fst (WithContext c2 (fst (WithContext c1 l))) = fst (WithContext c2 l).
Proof.
  destruct l as [fs [e|]]; [intros He; now simpl in He|].
  unfold WithContext, tbind, parseFile. simpl.
  destruct (snd (ParseFile "context" (marshal "context" c1)));
    [intros He; now simpl in He|intros _].
  simpl. destruct (snd (ParseFile "context" (marshal "context" c2)));
    simpl; unfold setFile; simpl; now rewrite insert_insert_eq.
Qed.

Lemma WithParams_twice l p1 p2 :
  err (fst (WithParams p1 l)) = None →
  fst (WithParams p2 (fst (WithParams p1 l))) = fst (WithParams p2 l).
Proof.
  destruct l as [fs [e|]]; [intros He; now simpl in He|].
  unfold WithParams, tbind, parseFile. simpl.
  destruct (snd (ParseFile "parameter" (marshal "parameter" p1)));
    [intros He; now simpl in He|intros _].
  simpl. destruct (snd (ParseFile "parameter" (marshal "parameter" p2)));
    simpl; unfold setFile; simpl; now rewrite insert_insert_eq.
Qed.

Lemma WithTemplate_twice l raw1 raw2 :
  err (fst (WithTemplate raw1 l)) = None →
  fst (WithTemplate raw2 (fst (WithTemplate raw1 l))) =
  fst (WithTemplate raw2 l).
Proof.
  destruct l as [fs [e|]]; [intros He; now simpl in He|].
  unfold WithTemplate, tbind, parseFile. simpl.
  destruct (snd (ParseFile "-" raw1));
    [intros He; now simpl in He|intros _].
  simpl. destruct (snd (ParseFile "-" raw2));
    simpl; unfold setFile; simpl; now rewrite insert_insert_eq.
Qed.

(** Repeating a call changes nothing: either the first call latched an
    error and the second does nothing, or the second stores the same file
    again. *)
Lemma applyCall_idempotent c l :
  fst (applyCall c (fst (applyCall c l))) = fst (applyCall c l).
Proof.
  destruct (err (fst (applyCall c l))) as [e|] eqn:He.
  - now rewrite (applyCall_latched c _ e He).
  - destruct c; simpl in *;
      auto using WithTemplate_twice, WithContext_twice, WithParams_twice.
Qed.

(** C6, as the code has it. When the first call latches no parse error,
    a second call of the same method stores its fragment in place of the
    first one: the loader after both calls is the loader after the second
    call alone, error field included, so the replacement itself adds no
    error and nothing accumulates. When the first call does latch an error
    the second call is void. Repeating the same call is idempotent in both
    cases. *)
Theorem last_write_wins l (c1 c2 p1 p2 : Value) (raw1 raw2 : string) :
  err l = None →
  (err (fst (WithContext c1 l)) = None →
   fst (WithContext c2 (fst (WithContext c1 l))) = fst (WithContext c2 l)) ∧
  (err (fst (WithParams p1 l)) = None →
   fst (WithParams p2 (fst (WithParams p1 l))) = fst (WithParams p2 l)) ∧
  (err (fst (WithTemplate raw1 l)) = None →
   fst (WithTemplate raw2 (fst (WithTemplate raw1 l))) =
   fst (WithTemplate raw2 l)) ∧
  (∀ c : LoaderCall,
      err (fst (applyCall c l)) ≠ None →
      ∀ c', applyCall c' (fst (applyCall c l)) = (fst (applyCall c l), [])) ∧
  (∀ c : LoaderCall,
      fst (applyCall c (fst (applyCall c l))) = fst (applyCall c l)).
Proof.
  intros _. repeat split.
  - apply WithContext_twice.
  - apply WithParams_twice.
  - apply WithTemplate_twice.
  - intros c Hc c'. destruct (err (fst (applyCall c l))) as [e|] eqn:He;
      [|congruence].
    now apply applyCall_latched with e.
  - intros c. apply applyCall_idempotent.
Qed.

(** ** Serialization errors *)

Lemma marshal_failed key (v : Value) x :
  jsonMarshal v = inl x → marshal key v = key +:+ ": ".
Proof. intros Hv. unfold marshal. now rewrite Hv. Qed.

Lemma marshal_body key (v : Value) b :
  jsonMarshal v = inr b → marshal key v = key +:+ ": " +:+ b.
Proof. intros Hv. unfold marshal. now rewrite Hv. Qed.

(** C10. [marshal] has no error to return: it prints the key, a colon, a
    space and the serialized body, and the empty body when [json.Marshal]
    fails. [newLoader], [WithContext] and [WithParams] return a loader
    after one call of the parser on that text; when the parser rejects it,
    the loader they return has the parse error latched and [Complete]
    returns it. *)
Theorem marshal_swallows_errors (v : Value) (key : string) l kvs :
  (∀ x, jsonMarshal v = inl x → marshal key v = key +:+ ": ") ∧
  (∀ b, jsonMarshal v = inr b → marshal key v = key +:+ ": " +:+ b) ∧
  snd (newLoader v) = [("context", marshal "context" v)] ∧
  (snd (ParseFile "context" (marshal "context" v)) ≠ None →
   err (fst (newLoader v)) = Some (Errorf "loader parse context error") ∧
   CompleteIn kvs (fst (newLoader v)) =
     inl (Errorf "loader parse context error")) ∧
  (err l = None →
   snd (WithContext v l) = [("context", marshal "context" v)] ∧
   snd (WithParams v l) = [("parameter", marshal "parameter" v)]) ∧
  (err l = None →
   snd (ParseFile "context" (marshal "context" v)) ≠ None →
   err (fst (WithContext v l)) = Some (Errorf "loader parse context error") ∧
   CompleteIn kvs (fst (WithContext v l)) =
     inl (Errorf "loader parse context error")) ∧
  (err l = None →
   snd (ParseFile "parameter" (marshal "parameter" v)) ≠ None →
   err (fst (WithParams v l)) =
     Some (Errorf "loader parse parameter error") ∧
   CompleteIn kvs (fst (WithParams v l)) =
     inl (Errorf "loader parse parameter error")).
Proof.
  split; [intros x; apply marshal_failed|].
  split; [intros b; apply marshal_body|].
  split; [reflexivity|].
  split.
  { intros Hp. pose proof (newLoader_err v) as He.
    destruct (snd (ParseFile "context" (marshal "context" v))); [|done].
    split; [exact He|]. now apply CompleteIn_latched. }
  split.
  { intros He. unfold WithContext, WithParams. now rewrite He. }
  split.
  - intros Hl Hp. pose proof (WithContext_err v l Hl) as He.
    destruct (snd (ParseFile "context" (marshal "context" v))); [|done].
    split; [exact He|]. now apply CompleteIn_latched.
  - intros Hl Hp. pose proof (WithParams_err v l Hl) as He.
    destruct (snd (ParseFile "parameter" (marshal "parameter" v))); [|done].
    split; [exact He|]. now apply CompleteIn_latched.
Qed.

(** ** The two loops of [Complete] *)

Lemma addFiles_inl bi kvs e :
  addFiles bi kvs = inl e →
  ∃ fname f bi' x,
    (fname, f) ∈ kvs ∧ AddSyntax bi' f = inl x ∧
    e = WithMessage (Foreign x) (addSyntaxMsg fname).
Proof.
  revert bi. induction kvs as [|[fname f] kvs IH]; intros bi; simpl.
  - discriminate.
  - destruct (AddSyntax bi f) as [x|bi'] eqn:Hadd.
    + intros [= <-]. exists fname, f, bi, x.
      split; [apply list_elem_of_here|]. auto.
    + intros He. destruct (IH _ He) as (fname' & f' & b & x & Hin & Hx & ->).
      exists fname', f', b, x. split; [now apply list_elem_of_further|]. auto.
Qed.

Lemma validateAll_inl insts ret e :
  validateAll insts ret = inl e →
  ∃ inst x, inst ∈ insts ∧ Validate inst = Some x ∧
            e = WithMessage (Foreign x) validateMsg.
Proof.
  revert ret. induction insts as [|inst insts IH]; intros ret; simpl.
  - discriminate.
  - destruct (Validate inst) as [x|] eqn:Hv.
    + intros [= <-]. exists inst, x. split; [apply list_elem_of_here|]. auto.
    + intros He. destruct (IH _ He) as (i & x & Hin & Hx & ->).
      exists i, x. split; [now apply list_elem_of_further|]. auto.
Qed.

Lemma validateAll_inr insts ret r :
  validateAll insts ret = inr r →
  Forall (fun inst => Validate inst = None) insts ∧
  r = match last insts with
      | Some inst => Some inst
      | None => ret
      end.
Proof.
  revert ret. induction insts as [|inst insts IH]; intros ret;
    cbn [validateAll].
  - intros [= <-]. auto.
  - destruct (Validate inst) as [x|] eqn:Hv; [discriminate|].
    intros Hr. destruct (IH _ Hr) as [Hall ->]. split; [now constructor|].
    destruct insts as [|i2 insts]; [reflexivity|].
    change (last (inst :: i2 :: insts)) with (last (i2 :: insts)).
    destruct (last (i2 :: insts)) eqn:Hl; [reflexivity|].
    now apply last_None in Hl.
Qed.

Lemma validateAll_Exists insts ret :
  Exists (fun inst => Validate inst ≠ None) insts →
  ∃ e, validateAll insts ret = inl e.
Proof.
  intros Hex. revert ret. induction Hex as [inst insts Hv|inst insts _ IH];
    intros ret; simpl.
  - destruct (Validate inst); [eauto|done].
  - destruct (Validate inst); eauto.
Qed.

(** C5. On a loader without a latched error whose files the engine accepts,
    [Complete] returns a validation error as soon as one instance that
    [cue.Build] made is not concrete, and no instance then; and when
    [Complete] returns without an error, no error was latched, the engine
    accepted the files, every instance that [cue.Build] made validates as
    concrete, and the instance returned is the last of them. *)
Theorem concreteness_gate l kvs :
  (∀ bi,
      err l = None →
      addFiles NewInstance kvs = inr bi →
      Exists (fun inst => Validate inst ≠ None) (cueBuild [bi]) →
      ∃ inst x,
        inst ∈ cueBuild [bi] ∧ Validate inst = Some x ∧
        CompleteIn kvs l = inl (WithMessage (Foreign x) validateMsg)) ∧
  (∀ ret,
      CompleteIn kvs l = inr ret →
      err l = None ∧
      ∃ bi,
        addFiles NewInstance kvs = inr bi ∧
        Forall (fun inst => Validate inst = None) (cueBuild [bi]) ∧
        ret = last (cueBuild [bi])).
Proof.
  split.
  - intros bi He Hadd Hex. unfold CompleteIn. rewrite He, Hadd.
    destruct (validateAll_Exists _ None Hex) as [e Hval]. rewrite Hval.
    destruct (validateAll_inl _ _ _ Hval) as (inst & x & Hin & Hx & ->).
    eauto.
  - intros ret. unfold CompleteIn.
    destruct (err l) as [e|]; [discriminate|].
    destruct (addFiles NewInstance kvs) as [e|bi]; [discriminate|].
    intros Hval. split; [reflexivity|]. exists bi. split; [reflexivity|].
    destruct (validateAll_inr _ _ _ Hval) as [Hall ->].
    split; [exact Hall|]. now destruct (last (cueBuild [bi])).
Qed.

(** ** What the errors of [Complete] say *)

Lemma applyCall_parseLatch c l :
  parseLatch (err l) → parseLatch (err (fst (applyCall c l))).
Proof.
  intros Hl. destruct (err l) as [e|] eqn:He.
  - rewrite (applyCall_latched c l e He). simpl. now rewrite He.
  - destruct c as [raw|ctx|params]; simpl.
    + rewrite (WithTemplate_err raw l He).
      destruct (snd (ParseFile "-" raw)); [|now left].
      right. exists "template". split; [set_solver|reflexivity].
    + rewrite (WithContext_err ctx l He).
      destruct (snd (ParseFile _ _)); [|now left].
      right. exists "context". split; [set_solver|reflexivity].
    + rewrite (WithParams_err params l He).
      destruct (snd (ParseFile _ _)); [|now left].
      right. exists "parameter". split; [set_solver|reflexivity].
Qed.

Lemma runCalls_parseLatch cs l :
  parseLatch (err l) → parseLatch (err (fst (runCalls cs l))).
Proof.
  revert l. induction cs as [|c cs IH]; intros l Hl; [exact Hl|].
  simpl. unfold tbind. simpl. apply IH. now apply applyCall_parseLatch.
Qed.

Lemma built_parseLatch (ctx : Value) cs : parseLatch (err (built ctx cs)).
Proof.
  apply runCalls_parseLatch. rewrite newLoader_err.
  destruct (snd (ParseFile _ _)); [|now left].
  right. exists "context". split; [set_solver|reflexivity].
Qed.

Lemma classify_parse k :
  k ∈ ["context"; "parameter"; "template"] →
  classify (E := Err) (Errorf ("loader parse " +:+ k +:+ " error")) =
  Some (ParseStage, Some k).
Proof.
  intros Hk. repeat (apply elem_of_cons in Hk as [->|Hk]; [reflexivity|]).
  now apply elem_of_nil in Hk.
Qed.

Lemma classify_addSyntax (cause : error) fname :
  classify (WithMessage cause (addSyntaxMsg fname)) =
  Some (BuildStage, Some fname).
Proof. reflexivity. Qed.

Lemma classify_validate (cause : error) :
  classify (WithMessage cause validateMsg) = Some (ValidateStage, None).
Proof. reflexivity. Qed.

(** C7, as the code has it. An error of [Complete], on a loader made by
    [newLoader] and any calls, is of one of three shapes: a latched parse
    error, whose message names the fragment ([context], [parameter] or
    [template]); an [AddSyntax] error of the engine under a message that
    names the file it was adding; or a validation error of the engine
    under the fixed message of the validation stage, which names no
    fragment. *)
Theorem complete_error_classified (ctx : Value) (cs : list LoaderCall)
    kvs e :
  CompleteIn kvs (built ctx cs) = inl e →
  (∃ k, k ∈ ["context"; "parameter"; "template"] ∧
        e = Errorf ("loader parse " +:+ k +:+ " error") ∧
        classify e = Some (ParseStage, Some k)) ∨
  (∃ fname f bi x,
      (fname, f) ∈ kvs ∧ AddSyntax bi f = inl x ∧
      e = WithMessage (Foreign x) ("loader AddSyntax " +:+ fname) ∧
      classify e = Some (BuildStage, Some fname)) ∨
  (∃ x, e = WithMessage (Foreign x) "loader cue-instance validate" ∧
        classify e = Some (ValidateStage, None)).
Proof.
  unfold CompleteIn. destruct (built_parseLatch ctx cs) as [He|(k & Hk & He)];
    rewrite He.
  - destruct (addFiles NewInstance kvs) as [e'|bi] eqn:Hadd.
    + intros [= <-]. right; left.
      destruct (addFiles_inl _ _ _ Hadd) as (fname & f & b & x & Hin & Hx & ->).
      exists fname, f, b, x. auto using classify_addSyntax.
    + intros Hval. right; right.
      destruct (validateAll_inl _ _ _ Hval) as (inst & x & _ & _ & ->).
      exists x. auto using classify_validate.
  - intros [= <-]. left. exists k. auto using classify_parse.
Qed.

(** ** The order of the range over [l.files] *)

Section OrderInsensitive.

(** An engine for which the order of the [AddSyntax] calls does not
    show: it accepts every file, and build instances that received the
    same files in another order are related by [R] and build the same
    instances. *)
Variable R : relation BuildInstance.
Hypothesis R_equiv : Equivalence R.
Hypothesis AddSyntax_accepts :
  ∀ bi f, ∃ bi', AddSyntax bi f = inr bi'.
Hypothesis AddSyntax_proper :
  ∀ bi1 bi2 f b1 b2,
    R bi1 bi2 → AddSyntax bi1 f = inr b1 → AddSyntax bi2 f = inr b2 →
    R b1 b2.
Hypothesis AddSyntax_swap :
  ∀ bi f g b1 b2 b1' b2',
    AddSyntax bi f = inr b1 → AddSyntax b1 g = inr b2 →
    AddSyntax bi g = inr b1' → AddSyntax b1' f = inr b2' →
    R b2 b2'.
Hypothesis cueBuild_proper :
  ∀ b b', R b b' → cueBuild [b] = cueBuild [b'].





End OrderInsensitive.

(** Some run of [Complete] exists: the range visits the entries in some
    order. *)
Lemma Completes_total l : ∃ r, Completes l r.
Proof.
  exists (CompleteIn (map_to_list (files l)) l), (map_to_list (files l)).
  split; [unfold rangeOrder|]; reflexivity.
Qed.

End LoaderTheory.

(** * Properties of the builder *)

Section BuilderTheory.

Context `{Packages}.

Implicit Types (b : builder) (wl : Workload) (e : error).

Lemma builder_eta b : {| app := app b |} = b.
Proof. now destruct b. Qed.

Lemma Build_CompleteWithContext ns b :
  Build ns (app b) = CompleteWithContext b ns.
Proof. unfold Build. now rewrite builder_eta. Qed.

(** ** The loop of [CompleteWithContext] *)

Lemma contextLoop_inv b ns wls ac comps :
  (∃ e, contextLoop b ns wls ac comps = (None, None, Some e) ∧
        Exists (fun wl => renderWorkload b ns wl = inl e) wls) ∨
  (∃ rs,
      Forall2 (fun wl r => renderWorkload b ns wl = inr r) wls rs ∧
      contextLoop b ns wls ac comps =
        (Some {| acName := acName ac;
                 acNamespace := acNamespace ac;
                 acLabels := acLabels ac;
                 acGVK := acGVK ac;
                 acComponents := acComponents ac ++ map snd rs |},
         Some (comps ++ map fst rs), None)).
Proof.
  revert ac comps. induction wls as [|wl wls IH]; intros ac comps.
  - right. exists []. split; [constructor|]. simpl.
    rewrite !app_nil_r. now destruct ac.
  - cbn [contextLoop].
    destruct (renderWorkload b ns wl) as [e|[comp acComp]] eqn:Hr.
    + left. exists e. split; [reflexivity|]. now left.
    + destruct (IH (appendComponent ac acComp) (comps ++ [comp]))
        as [(e & -> & Hex)|(rs & Hrs & ->)].
      * left. exists e. split; [reflexivity|]. now right.
      * right. exists ((comp, acComp) :: rs). split; [now constructor|].
        simpl. now rewrite <- !app_assoc.
Qed.

Lemma contextLoop_fails b ns wls ac comps :
  Exists (fun wl => ∃ e, renderWorkload b ns wl = inl e) wls →
  ∃ e, contextLoop b ns wls ac comps = (None, None, Some e).
Proof.
  intros Hex.
  destruct (contextLoop_inv b ns wls ac comps)
    as [(e & -> & _)|(rs & Hrs & _)]; [eauto|].
  exfalso. induction Hrs as [|wl r wls rs Hr _ IH].
  - inversion Hex.
  - inversion Hex as [? ? [e He]|]; subst; [congruence|auto].
Qed.

Lemma evalTraitsContext_app pre post c :
  evalTraitsContext (pre ++ post) c =
  match evalTraitsContext pre c with
  | inl e => inl e
  | inr c' => evalTraitsContext post c'
  end.
Proof.
  revert c. induction pre as [|tr pre IH]; intros c; [reflexivity|].
  simpl. destruct (trEvalContext tr c); auto.
Qed.

Lemma workloadFails_render b ns wl :
  workloadFails wl → ∃ e, renderWorkload b ns wl = inl e.
Proof.
  unfold renderWorkload.
  intros [[e He]|[(c & pre & tr & post & c' & e & Hc & Htrs & Hpre & Htr)
                 |(c & c' & e & Hc & Htrs & Hgen)]].
  - rewrite He. eauto.
  - rewrite Hc, Htrs, evalTraitsContext_app, Hpre. simpl. rewrite Htr. eauto.
  - rewrite Hc, Htrs, Hgen. eauto.
Qed.

(** C1. If the evaluation of a workload, or of one of its traits, or the
    extraction of its objects fails for some workload of the application,
    [CompleteWithContext], and so [Build], returns an error with a nil
    configuration and a nil component list. *)
Theorem all_or_nothing b ns :
  Exists workloadFails (Services (app b)) →
  ∃ e, CompleteWithContext b ns = (None, None, Some e) ∧
       Build ns (app b) = (None, None, Some e).
Proof.
  intros Hex. rewrite Build_CompleteWithContext. unfold CompleteWithContext.
  destruct (contextLoop_fails b ns (Services (app b)) (newAppConfig b ns) [])
    as [e He]; [|eauto].
  eapply Exists_impl; [exact Hex|]. intros wl. apply workloadFails_render.
Qed.

(** The builder returns either both graphs and no error, or an error and
    neither graph. *)
Lemma CompleteWithContext_result b ns :
  (∃ e, CompleteWithContext b ns = (None, None, Some e)) ∨
  (∃ ac comps, CompleteWithContext b ns = (Some ac, Some comps, None)).
Proof.
  unfold CompleteWithContext.
  destruct (contextLoop_inv b ns (Services (app b)) (newAppConfig b ns) [])
    as [(e & -> & _)|(rs & _ & ->)]; eauto.
Qed.

(** ** One workload *)

Lemma assistTraits_inr assists acc ts :
  assistTraits assists acc = inr ts →
  ∃ new,
    ts = acc ++ new ∧
    Forall2 (fun i t => ∃ o, instObject i = inr o ∧ traitObject t = Some o)
      assists new.
Proof.
  revert acc. induction assists as [|assist rest IH]; intros acc; simpl.
  - intros [= <-]. exists []. split; [now rewrite app_nil_r|constructor].
  - destruct (instObject assist) as [e|traitRef] eqn:Ho; [discriminate|].
    intros Hts. destruct (IH _ Hts) as (new & -> & Hnew).
    exists ({| traitObject := Some traitRef |} :: new).
    split; [now rewrite <- app_assoc|]. constructor; eauto.
Qed.

Lemma renderWorkload_inr b ns wl comp acComp :
  renderWorkload b ns wl = inr (comp, acComp) →
  ∃ c0 c1 o,
    wlEvalContext wl (NewContext (wlName wl)) = inr c0 ∧
    evalTraitsContext (wlTraits wl) c0 = inr c1 ∧
    instObject (fst (Output c1)) = inr o ∧
    Forall2 (fun i t => ∃ o, instObject i = inr o ∧ traitObject t = Some o)
      (snd (Output c1)) (Traits acComp) ∧
    comp = {| compName := wlName wl;
              compNamespace := ns;
              compLabels := Some (<[OamApplicationLabel := Name (app b)]> ∅);
              compGVK := ComponentGroupVersionKind;
              compWorkload := Some o |} ∧
    ComponentName acComp = wlName wl.
Proof.
  unfold renderWorkload, generateOAM.
  destruct (wlEvalContext wl (NewContext (wlName wl))) as [|c0] eqn:Hc0;
    [discriminate|].
  destruct (evalTraitsContext (wlTraits wl) c0) as [|c1] eqn:Hc1;
    [discriminate|].
  destruct (Output c1) as [base assists] eqn:Hout.
  destruct (instObject base) as [|o] eqn:Ho; [discriminate|].
  destruct (assistTraits assists []) as [|ts] eqn:Hts; [discriminate|].
  intros [= <- <-]. exists c0, c1, o. rewrite Hout.
  destruct (assistTraits_inr _ _ _ Hts) as (new & -> & Hnew).
  repeat split; assumption || reflexivity.
Qed.

Lemma renderWorkload_stamped b ns wl comp acComp :
  renderWorkload b ns wl = inr (comp, acComp) →
  stamped b ns wl comp ∧ ComponentName acComp = compName comp.
Proof.
  intros Hr.
  destruct (renderWorkload_inr _ _ _ _ _ Hr)
    as (c0 & c1 & o & _ & _ & _ & _ & -> & Hname).
  split; [|exact Hname]. repeat split.
  eexists. split; [reflexivity|]. apply lookup_insert_eq.
Qed.

(** C2, as the code has it. After a successful [Build], the components are
    one per workload, in order; each has the name of its workload, the
    namespace [ns] as given (so a nonempty one when [ns] is nonempty), the
    component kind and the label [application.oam.dev] with the name of the
    application; and the binding records are one per component, each with
    the name of its component. *)
Theorem stamping_invariant ns (a : Appfile) ac comps :
  Build ns a = (Some ac, Some comps, None) →
  Forall2
    (fun wl c =>
       compName c = wlName wl ∧
       compNamespace c = ns ∧
       (ns ≠ "" → compNamespace c ≠ "") ∧
       ∃ m, compLabels c = Some m ∧
            m !! "application.oam.dev" = Some (Name a))
    (Services a) comps ∧
  Forall2 (fun c r => ComponentName r = compName c) comps (acComponents ac).
Proof.
  unfold Build, CompleteWithContext. cbn [app].
  set (b := {| app := a |}).
  destruct (contextLoop_inv b ns (Services a) (newAppConfig b ns) [])
    as [(e & -> & _)|(rs & Hrs & ->)]; [discriminate|].
  intros [= <- <-]. cbn [acComponents newAppConfig app_nil_l app].
  split.
  - induction Hrs as [|wl [comp acComp] wls rs Hr _ IH]; [constructor|].
    simpl. constructor; [|exact IH].
    destruct (renderWorkload_stamped _ _ _ _ _ Hr)
      as [(Hn & Hns & _ & Hl) _].
    simpl. split; [exact Hn|]. split; [exact Hns|].
    split; [congruence|exact Hl].
  - induction Hrs as [|wl [comp acComp] wls rs Hr _ IH]; [constructor|].
    simpl. constructor; [|exact IH].
    now destruct (renderWorkload_stamped _ _ _ _ _ Hr).
Qed.

(** ** Order *)

Lemma evalTraitsContext_assists contributed trs c c' :
  ContextAccumulates contributed →
  evalTraitsContext trs c = inr c' →
  snd (Output c') =
  snd (Output c) ++ concat (contributions contributed trs c).
Proof.
  intros (_ & _ & Htr). revert c.
  induction trs as [|tr trs IH]; intros c; simpl.
  - intros [= <-]. now rewrite app_nil_r.
  - destruct (trEvalContext tr c) as [|c1] eqn:Hc1; [discriminate|].
    intros Hc'. rewrite (IH _ Hc'), (Htr _ _ _ Hc1). simpl.
    now rewrite <- app_assoc.
Qed.

(** C3. After a successful [Build], the components and the binding records
    are one per workload, in the order of the workloads. With an
    evaluation context that accumulates auxiliaries as the specification
    says, the traits of the binding record of a workload are, entry by
    entry, the objects of what its traits rendered, trait after trait in
    the order of declaration: a trait that renders several objects gives
    as many consecutive entries, in its place. *)
Theorem order_preservation contributed ns (a : Appfile) ac comps :
  ContextAccumulates contributed →
  Build ns a = (Some ac, Some comps, None) →
  Forall2 (fun wl c => compName c = wlName wl) (Services a) comps ∧
  Forall2
    (fun wl r =>
       ComponentName r = wlName wl ∧
       ∃ c0,
         wlEvalContext wl (NewContext (wlName wl)) = inr c0 ∧
         Forall2
           (fun i t => ∃ o, instObject i = inr o ∧ traitObject t = Some o)
           (concat (contributions contributed (wlTraits wl) c0))
           (Traits r))
    (Services a) (acComponents ac).
Proof.
  intros Hacc. unfold Build, CompleteWithContext. cbn [app].
  set (b := {| app := a |}).
  destruct (contextLoop_inv b ns (Services a) (newAppConfig b ns) [])
    as [(e & -> & _)|(rs & Hrs & ->)]; [discriminate|].
  intros [= <- <-]. cbn [acComponents newAppConfig app_nil_l].
  split.
  - induction Hrs as [|wl [comp acComp] wls rs Hr _ IH]; [constructor|].
    simpl. constructor; [|exact IH].
    now destruct (renderWorkload_stamped _ _ _ _ _ Hr) as [(Hn & _) _].
  - induction Hrs as [|wl [comp acComp] wls rs Hr _ IH]; [constructor|].
    simpl. constructor; [|exact IH].
    destruct (renderWorkload_inr _ _ _ _ _ Hr)
      as (c0 & c1 & o & Hc0 & Hc1 & _ & Hts & _ & Hname).
    split; [exact Hname|]. exists c0. split; [exact Hc0|].
    rewrite (evalTraitsContext_assists contributed _ _ _ Hacc Hc1) in Hts.
    destruct Hacc as (Hnew & Hwl & _).
    now rewrite (Hwl _ _ _ Hc0), Hnew in Hts.
Qed.

(** ** The loop of [Complete] *)

Lemma evalTraits_name compCtx trs comp comp' :
  evalTraits compCtx trs comp = inr comp' →
  ComponentName comp' = ComponentName comp.
Proof.
  revert comp. induction trs as [|trait trs IH]; intros comp; simpl.
  - now intros [= <-].
  - destruct (trEval trait _) as [|ctraits]; [discriminate|].
    intros Hc. now rewrite (IH _ Hc).
Qed.

Lemma completeLoop_inr b ns wls ac comps ac' comps' :
  completeLoop b ns wls ac comps = (Some ac', Some comps', None) →
  ∃ cs rs,
    comps' = comps ++ cs ∧
    acComponents ac' = acComponents ac ++ rs ∧
    acName ac' = acName ac ∧ acNamespace ac' = acNamespace ac ∧
    acLabels ac' = acLabels ac ∧ acGVK ac' = acGVK ac ∧
    Forall2 (stamped b ns) wls cs ∧
    Forall2 (fun wl r => ComponentName r = wlName wl) wls rs.
Proof.
  revert ac comps. induction wls as [|wl wls IH]; intros ac comps.
  - simpl. intros [= <- <-]. exists [], [].
    rewrite !app_nil_r. repeat split; constructor.
  - cbn [completeLoop].
    destruct (wlEval wl _) as [|component]; [discriminate|].
    destruct (evalTraits _ _ _) as [|comp] eqn:Htr; [discriminate|].
    intros Hloop.
    destruct (IH _ _ Hloop)
      as (cs & rs & -> & Hrs & Hn & Hns & Hl & Hk & Hcs & Hbound).
    apply evalTraits_name in Htr. simpl in *.
    eexists (_ :: cs), (comp :: rs).
    split; [now rewrite <- app_assoc|].
    split; [now rewrite Hrs, <- app_assoc|].
    repeat (split; [assumption|]).
    split; constructor; try assumption.
    repeat split. unfold setLabel. simpl. eexists. split; [reflexivity|].
    apply lookup_insert_eq.
Qed.

Lemma contextLoop_inr b ns wls ac comps ac' comps' :
  contextLoop b ns wls ac comps = (Some ac', Some comps', None) →
  ∃ cs rs,
    comps' = comps ++ cs ∧
    acComponents ac' = acComponents ac ++ rs ∧
    acName ac' = acName ac ∧ acNamespace ac' = acNamespace ac ∧
    acLabels ac' = acLabels ac ∧ acGVK ac' = acGVK ac ∧
    Forall2 (stamped b ns) wls cs ∧
    Forall2 (fun wl r => ComponentName r = wlName wl) wls rs.
Proof.
  destruct (contextLoop_inv b ns wls ac comps)
    as [(e & -> & _)|(rs & Hrs & ->)]; [discriminate|].
  intros [= <- <-]. exists (map fst rs), (map snd rs). simpl.
  repeat (split; [reflexivity|]).
  split; induction Hrs as [|wl [comp acComp] wls rs Hr _ IH];
    simpl; constructor; try assumption.
  - now destruct (renderWorkload_stamped _ _ _ _ _ Hr).
  - destruct (renderWorkload_stamped _ _ _ _ _ Hr) as [(Hn & _) ->].
    exact Hn.
Qed.

Lemma stamped_agree b ns wl c1 c2 :
  stamped b ns wl c1 → stamped b ns wl c2 →
  compName c1 = compName c2 ∧
  compNamespace c1 = compNamespace c2 ∧
  compGVK c1 = compGVK c2 ∧
  applicationLabel c1 = applicationLabel c2.
Proof.
  intros (Hn1 & Hns1 & Hk1 & m1 & Hm1 & Hl1) (Hn2 & Hns2 & Hk2 & m2 & Hm2 & Hl2).
  unfold applicationLabel. rewrite Hm1, Hm2.
  repeat split; congruence.
Qed.

Lemma Forall2_common {A B C} (P : A → B → Prop) (Q : A → C → Prop)
    (S : B → C → Prop) (xs : list A) (ys : list B) (zs : list C) :
  (∀ x y z, P x y → Q x z → S y z) →
  Forall2 P xs ys → Forall2 Q xs zs → Forall2 S ys zs.
Proof.
  intros HS HP. revert zs. induction HP as [|x y xs ys Hxy _ IH];
    intros zs HQ; inversion HQ; subst; constructor; eauto.
Qed.

(** C9, as the code has it. When [Complete] and [CompleteWithContext] both
    succeed, the two configurations have the same name, namespace, labels
    and kind; the two component lists have the same length and, position by
    position, the same name, namespace, kind and application label; and
    the binding records have, position by position, the same component
    name. The rendered bodies, the other labels and the traits are those
    of [Eval] on one side and of the evaluation context on the other. *)
Theorem strategies_agree_on_stamping b ns ac1 cs1 ac2 cs2 :
  Complete b ns = (Some ac1, Some cs1, None) →
  CompleteWithContext b ns = (Some ac2, Some cs2, None) →
  acName ac1 = acName ac2 ∧
  acNamespace ac1 = acNamespace ac2 ∧
  acLabels ac1 = acLabels ac2 ∧
  acGVK ac1 = acGVK ac2 ∧
  Forall2
    (fun c1 c2 =>
       compName c1 = compName c2 ∧
       compNamespace c1 = compNamespace c2 ∧
       compGVK c1 = compGVK c2 ∧
       applicationLabel c1 = applicationLabel c2)
    cs1 cs2 ∧
  Forall2 (fun r1 r2 => ComponentName r1 = ComponentName r2)
    (acComponents ac1) (acComponents ac2).
Proof.
  unfold Complete, CompleteWithContext. intros H1 H2.
  destruct (completeLoop_inr _ _ _ _ _ _ _ H1)
    as (c1 & r1 & -> & Hr1 & -> & -> & -> & -> & Hs1 & Hb1).
  destruct (contextLoop_inr _ _ _ _ _ _ _ H2)
    as (c2 & r2 & -> & Hr2 & -> & -> & -> & -> & Hs2 & Hb2).
  rewrite Hr1, Hr2. simpl. repeat (split; [reflexivity|]). split.
  - eapply Forall2_common; [|exact Hs1|exact Hs2].
    intros wl x y. apply stamped_agree.
  - eapply Forall2_common; [|exact Hb1|exact Hb2].
    intros wl x y. congruence.
Qed.

(** ** Runs *)


End BuilderTheory.

(** * The code on the small engine and the small application *)

Section Examples.

Local Existing Instance toyLibraries.
Local Existing Instance toyPackages.

(** ** The scenarios of the specification *)

Example scenario_no_trait :
  ∃ ac c,
    Build "prod" (web []) = (Some ac, Some [c], None) ∧
    compName c = "front" ∧ compNamespace c = "prod" ∧
    applicationLabel c = Some "web" ∧
    compWorkload c = Some "{name: front, replicas: 3}" ∧
    acComponents ac = [ {| ComponentName := "front"; Traits := [] |} ].
Proof. eexists _, _. repeat split. Qed.

Example scenario_one_trait :
  ∃ ac c,
    Build "prod" (web [Emit ["{kind: Scaler, max: 3}"]]) =
      (Some ac, Some [c], None) ∧
    acComponents ac =
      [ {| ComponentName := "front";
           Traits := [ {| traitObject := Some "{kind: Scaler, max: 3}" |} ] |} ].
Proof. eexists _, _. repeat split. Qed.

Lemma toy_accumulates : ContextAccumulates toyContributed.
Proof.
  repeat split.
  - intros wl c c'. simpl. unfold toyWlEvalContext.
    destruct (twBody wl); [|discriminate]. now intros [= <-].
  - intros tr c c'. simpl. unfold toyTrEvalContext.
    destruct tr; simpl; try discriminate; intros [= <-]; simpl;
      now rewrite ?app_nil_r.
Qed.

(** ** C1 *)

(** Witness of C1: in [shop], the second trait of workload [B] fails. *)
Lemma all_or_nothing_witness :
  ∃ e, CompleteWithContext {| app := shop |} "prod" = (None, None, Some e) ∧
       Build "prod" shop = (None, None, Some e).
Proof.
  apply (all_or_nothing {| app := shop |} "prod").
  simpl. apply Exists_cons_tl, Exists_cons_hd.
  right; left.
  exists (mkToyContext "B" (Some "{name: B}") []), [Emit ["t1"]], Broken, [],
    (mkToyContext "B" (Some "{name: B}") [Some "t1"]),
    (Foreign "trait does not render").
  repeat split.
Defined.

(** ** C2 *)

(** Witness of C2. *)
Lemma stamping_invariant_witness :
  ∃ ac comps,
    Build "prod" shop_ok = (Some ac, Some comps, None) ∧
    Forall2
      (fun wl c =>
         compName c = wlName wl ∧
         compNamespace c = "prod" ∧
         ("prod" ≠ "" → compNamespace c ≠ "") ∧
         ∃ m, compLabels c = Some m ∧
              m !! "application.oam.dev" = Some "shop")
      (Services shop_ok) comps ∧
    Forall2 (fun c r => ComponentName r = compName c) comps (acComponents ac).
Proof.
  eexists _, _. split; [reflexivity|].
  exact (stamping_invariant "prod" shop_ok _ _ eq_refl).
Defined.

(** Counterexample to C2 as stated: with the empty namespace, [Build]
    succeeds and the component has the empty namespace. *)
Lemma stamping_empty_namespace :
  ∃ ac c,
    Build "" (web []) = (Some ac, Some [c], None) ∧ compNamespace c = "".
Proof. eexists _, _. split; reflexivity. Qed.

(** ** C3 *)

(** Witness of C3: in [shop_ok] the first trait of [B] renders two
    objects, the second patches the base object and renders none. *)
Lemma order_preservation_witness :
  ∃ ac comps,
    Build "prod" shop_ok = (Some ac, Some comps, None) ∧
    map compName comps = ["A"; "B"; "C"] ∧
    map ComponentName (acComponents ac) = ["A"; "B"; "C"] ∧
    map (fun r => map traitObject (Traits r)) (acComponents ac) =
      [[Some "t1"; Some "t2"]; [Some "t1"; Some "t1b"]; [Some "t1"; Some "t2"]] ∧
    Forall2 (fun wl c => compName c = wlName wl) (Services shop_ok) comps.
Proof.
  eexists _, _. split; [reflexivity|]. repeat (split; [reflexivity|]).
  exact (proj1 (order_preservation toyContributed "prod" shop_ok _ _
                  toy_accumulates eq_refl)).
Defined.

(** ** C4 *)

(** Witness of C4: a context that does not serialize latches the error in
    [newLoader]; the calls after it parse nothing. *)
Lemma sticky_first_error_witness :
  let l := fst (newLoader None) in
  let cs := [CallWithTemplate "output: {replicas: parameter.n}";
             CallWithParams (Some "{n: 3}");
             CallWithContext (Some "{name: front}")] in
  runCalls cs l = (l, []) ∧
  err (fst (runCalls cs l)) = Some (Errorf "loader parse context error") ∧
  CompleteIn (map_to_list (files l)) (fst (runCalls cs l)) =
    inl (Errorf "loader parse context error").
Proof.
  intros l cs.
  exact (sticky_first_error l (Errorf "loader parse context error") cs
           (map_to_list (files l)) eq_refl).
Defined.

(** ** C5 *)

(** Witness of C5: the template of [unboundLoader] refers to
    [parameter.n] and there is no parameter fragment. *)
Lemma concreteness_gate_witness :
  ∃ inst x,
    Validate inst = Some x ∧
    CompleteIn (map_to_list (files unboundLoader)) unboundLoader =
      inl (WithMessage (Foreign x) "loader cue-instance validate").
Proof.
  destruct (proj1 (concreteness_gate unboundLoader
                     (map_to_list (files unboundLoader)))
              (mkToyBuild true ""
                 [mkToyFile "" "context: {name: front}";
                  mkToyFile "" "output: {replicas: parameter.n}"]))
    as (inst & x & _ & Hx & Hc).
  - reflexivity.
  - vm_compute. reflexivity.
  - apply Exists_cons_hd. vm_compute. discriminate.
  - exists inst, x. split; [exact Hx|exact Hc].
Defined.

(** ** C6 *)

(** Witness of C6. *)
Lemma last_write_wins_witness :
  fst (WithContext (Some "{name: back}")
         (fst (WithContext (Some "{name: middle}") frontLoader))) =
  fst (WithContext (Some "{name: back}") frontLoader).
Proof.
  exact (proj1 (last_write_wins frontLoader (Some "{name: middle}")
                  (Some "{name: back}") None None "" "" eq_refl) eq_refl).
Defined.

(** Counterexample to C6 as stated: [frontLoader] has no error; a first
    context that does not serialize, or a first template that does not
    parse, latches a parse error, and the second call is void, so the loader
    is not the one that the second call alone gives. *)
Lemma first_parse_error_blocks_replacement :
  err frontLoader = None ∧
  fst (WithContext (Some "{name: back}") (fst (WithContext None frontLoader)))
  ≠ fst (WithContext (Some "{name: back}") frontLoader) ∧
  fst (WithTemplate "output: {replicas: 1}"
         (fst (WithTemplate "output: " frontLoader)))
  ≠ fst (WithTemplate "output: {replicas: 1}" frontLoader).
Proof.
  split; [reflexivity|].
  split; intros Heq; apply (f_equal err) in Heq;
    vm_compute in Heq; discriminate.
Qed.

(** ** C7 *)

(** Witness of C7. *)
Lemma complete_error_classified_witness :
  ∃ x, CompleteIn (map_to_list (files unboundLoader)) unboundLoader =
         inl (WithMessage (Foreign x) "loader cue-instance validate").
Proof.
  destruct (@complete_error_classified toyLibraries (Some "{name: front}")
              [CallWithTemplate "output: {replicas: parameter.n}"]
              (map_to_list (files unboundLoader))
              (WithMessage (Foreign "incomplete value")
                 "loader cue-instance validate"))
    as [(k & _ & Hk & _)|[(fname & f & bi & x & _ & _ & Hx & _)|(x & Hx & _)]].
  - vm_compute. reflexivity.
  - discriminate.
  - discriminate.
  - exists "incomplete value". vm_compute. reflexivity.
Defined.

(** Counterexample to C7 as stated: the validation error of
    [unboundLoader] is the engine's error under the fixed message of the
    stage; it names no fragment. *)
Lemma validate_error_names_no_fragment :
  ∃ e,
    Completes unboundLoader (inl e) ∧
    e = WithMessage (Foreign "incomplete value") "loader cue-instance validate" ∧
    classify e = Some (ValidateStage, None) ∧
    errorText id e = "loader cue-instance validate: incomplete value".
Proof.
  eexists. split; [|repeat split].
  exists (map_to_list (files unboundLoader)).
  split; [unfold rangeOrder|]; reflexivity.
Qed.

(** ** C8 *)


(** ** C9 *)

(** Witness of C9. *)
Lemma strategies_agree_on_stamping_witness :
  ∃ ac1 cs1 ac2 cs2,
    Complete {| app := shop_ok |} "prod" = (Some ac1, Some cs1, None) ∧
    CompleteWithContext {| app := shop_ok |} "prod" =
      (Some ac2, Some cs2, None) ∧
    acName ac1 = acName ac2 ∧
    Forall2 (fun r1 r2 => ComponentName r1 = ComponentName r2)
      (acComponents ac1) (acComponents ac2).
Proof.
  eexists _, _, _, _. split; [reflexivity|]. split; [reflexivity|].
  pose proof (strategies_agree_on_stamping {| app := shop_ok |} "prod"
                _ _ _ _ eq_refl eq_refl) as (Hn & _ & _ & _ & _ & Hr).
  split; [exact Hn|exact Hr].
Defined.

(** Counterexample to C9 as stated: on [shop_ok] both strategies succeed;
    the trait of [B] that patches the base object shows in the component
    of [CompleteWithContext] and not in the one of [Complete]. *)
Lemma strategies_differ :
  ∃ ac1 cs1 ac2 cs2,
    Complete {| app := shop_ok |} "prod" = (Some ac1, Some cs1, None) ∧
    CompleteWithContext {| app := shop_ok |} "prod" =
      (Some ac2, Some cs2, None) ∧
    map compWorkload cs1 =
      [Some "{name: A}"; Some "{name: B}"; Some "{name: C}"] ∧
    map compWorkload cs2 =
      [Some "{name: A}"; Some "{name: B}!"; Some "{name: C}"] ∧
    cs1 ≠ cs2.
Proof.
  eexists _, _, _, _. split; [reflexivity|]. split; [reflexivity|].
  split; [reflexivity|]. split; [reflexivity|].
  intros Heq. apply (f_equal (map compWorkload)) in Heq. discriminate.
Qed.

(** ** C10 *)

(** Witness of C10: a value that does not serialize. *)
Lemma marshal_swallows_errors_witness :
  marshal "parameter" None = "parameter: " ∧
  err (fst (WithParams None frontLoader)) =
    Some (Errorf "loader parse parameter error") ∧
  CompleteIn [] (fst (WithParams None frontLoader)) =
    inl (Errorf "loader parse parameter error").
Proof.
  pose proof (marshal_swallows_errors None "parameter" frontLoader [])
    as (Hm & _ & _ & _ & _ & _ & Hp).
  split; [exact (Hm _ eq_refl)|].
  apply Hp; [reflexivity|]. vm_compute. discriminate.
Defined.

End Examples.


(** * More properties of the loader *)

Section LoaderMore.

Context `{Libraries}.

Implicit Types (l : loader) (c : LoaderCall) (cs : list LoaderCall).

(** A call on a loader without a latched error: one call of the parser, the
    file stored under the key of the call, the error latched when the parser
    gave one. *)
Lemma applyCall_unlatched c l :
  err l = None →
  applyCall c l =
  (setFile
     (match snd (ParseFile (callKey c) (callSource c)) with
      | Some _ => setErr l (callError c)
      | None => l
      end)
     (callKey c) (fst (ParseFile (callKey c) (callSource c))),
   [callEntry c]).
Proof.
  intros He. destruct c; simpl;
    unfold WithTemplate, WithContext, WithParams, tbind, parseFile;
    rewrite He; reflexivity.
Qed.

Lemma applyCall_err_None c l :
  err (fst (applyCall c l)) = None → err l = None ∧ callParses c.
Proof.
  destruct (err l) as [e|] eqn:He.
  - rewrite (applyCall_latched c l e He). simpl. congruence.
  - rewrite (applyCall_unlatched c l He). unfold callParses. simpl.
    destruct (snd (ParseFile _ _)); simpl; [discriminate|auto].
Qed.

Lemma runCalls_cons c cs l :
  runCalls (c :: cs) l =
  (fst (runCalls cs (fst (applyCall c l))),
   snd (applyCall c l) ++ snd (runCalls cs (fst (applyCall c l)))).
Proof. reflexivity. Qed.

Lemma runCalls_app cs1 cs2 l :
  runCalls (cs1 ++ cs2) l =
  (fst (runCalls cs2 (fst (runCalls cs1 l))),
   snd (runCalls cs1 l) ++ snd (runCalls cs2 (fst (runCalls cs1 l)))).
Proof.
  revert l. induction cs1 as [|c cs1 IH]; intros l.
  - simpl. now destruct (runCalls cs2 l).
  - rewrite <- app_comm_cons, !runCalls_cons, IH. simpl.
    now rewrite app_assoc.
Qed.

Lemma runCalls_err_None cs l :
  err (fst (runCalls cs l)) = None → err l = None.
Proof.
  destruct (err l) as [e|] eqn:He; [|reflexivity].
  rewrite (runCalls_latched cs l e He). simpl. congruence.
Qed.

Lemma runCalls_parses cs l :
  err l = None → Forall callParses cs →
  err (fst (runCalls cs l)) = None ∧
  snd (runCalls cs l) = map callEntry cs.
Proof.
  intros He Hcs. revert l He. induction Hcs as [|c cs Hc _ IH]; intros l He.
  - auto.
  - rewrite runCalls_cons. simpl.
    assert (err (fst (applyCall c l)) = None) as He'.
    { rewrite (applyCall_unlatched c l He). unfold callParses in Hc.
      simpl. now rewrite Hc. }
    destruct (IH _ He') as [Herr Htr]. split; [exact Herr|].
    rewrite Htr, (applyCall_unlatched c l He). reflexivity.
Qed.

(** X1. A loader made by [newLoader] and any calls always holds a context
    fragment, and holds fragments under no other key than [context],
    [parameter] and [-]. *)
Theorem built_keys (ctx : Value) cs :
  is_Some (files (built ctx cs) !! "context") ∧
  dom (files (built ctx cs)) ⊆ ({["context"; "parameter"; "-"]} : gset string).
Proof.
  unfold built.
  assert (∀ l,
             is_Some (files l !! "context") ∧
             dom (files l) ⊆ ({["context"; "parameter"; "-"]} : gset string) →
             is_Some (files (fst (runCalls cs l)) !! "context") ∧
             dom (files (fst (runCalls cs l))) ⊆
               ({["context"; "parameter"; "-"]} : gset string)) as Hinv.
  { induction cs as [|c cs IH]; intros l Hl; [exact Hl|].
    rewrite runCalls_cons. simpl. apply IH.
    destruct (err l) as [e|] eqn:He.
    - now rewrite (applyCall_latched c l e He).
    - rewrite (applyCall_unlatched c l He). simpl.
      destruct Hl as [Hctx Hdom].
      assert (files (match snd (ParseFile (callKey c) (callSource c)) with
                     | Some _ => setErr l (callError c)
                     | None => l
                     end) = files l) as ->
          by now destruct (snd (ParseFile _ _)).
      split.
      + destruct (decide (callKey c = "context")) as [->|Hne].
        * rewrite lookup_insert_eq. eauto.
        * now rewrite lookup_insert_ne.
      + rewrite dom_insert_L. apply union_subseteq. split; [|exact Hdom].
        apply singleton_subseteq_l.
        destruct c; simpl; rewrite !elem_of_union, !elem_of_singleton; auto. }
  apply Hinv. unfold newLoader, tbind, parseFile. simpl.
  assert (files (match snd (ParseFile "context" (marshal "context" ctx)) with
                 | Some _ =>
                     setErr {| files := ∅; err := None |}
                       (Errorf (parseErrorMsg "context"))
                 | None => {| files := ∅; err := None |}
                 end) = ∅) as -> by now destruct (snd (ParseFile _ _)).
  split.
  - rewrite lookup_insert_eq. eauto.
  - rewrite dom_insert_L, dom_empty_L. apply union_subseteq.
    split; [|apply empty_subseteq]. apply singleton_subseteq_l.
    rewrite !elem_of_union, !elem_of_singleton. auto.
Qed.

(** X2. After a sequence of calls that latched no error, each key holds the
    file that the parser made of the text of the last call for that key, and
    a key that no call wrote holds what it held before. *)
Theorem last_source_wins cs l (k : string) :
  err (fst (runCalls cs l)) = None →
  files (fst (runCalls cs l)) !! k =
  match lastSource k cs with
  | Some src => Some (fst (ParseFile k src))
  | None => files l !! k
  end.
Proof.
  revert l. induction cs as [|c cs IH]; intros l; [reflexivity|].
  rewrite runCalls_cons. simpl. intros Hfin. rewrite (IH _ Hfin).
  destruct (lastSource k cs) as [src|]; [reflexivity|].
  destruct (applyCall_err_None c l (runCalls_err_None _ _ Hfin)) as [He Hc].
  rewrite (applyCall_unlatched c l He). unfold callParses in Hc.
  rewrite Hc. simpl. destruct (decide (callKey c = k)) as [<-|Hne].
  - now rewrite lookup_insert_eq.
  - now rewrite lookup_insert_ne.
Qed.

(** X3. Two calls that write different keys and whose texts both parse can
    be made in either order: the loader is the same. *)
Theorem calls_commute c1 c2 l :
  err l = None →
  callKey c1 ≠ callKey c2 →
  callParses c1 → callParses c2 →
  fst (applyCall c2 (fst (applyCall c1 l))) =
  fst (applyCall c1 (fst (applyCall c2 l))).
Proof.
  unfold callParses. intros He Hne H1 H2.
  rewrite (applyCall_unlatched c1 l He), (applyCall_unlatched c2 l He).
  rewrite H1, H2. simpl.
  rewrite !applyCall_unlatched by exact He. rewrite H1, H2. simpl.
  unfold setFile. simpl. f_equal. now apply insert_insert_ne.
Qed.

(** X4. In a sequence of calls on a loader without a latched error, the
    first call whose text the parser rejects latches its own error; the
    calls after it change nothing and are not parsed: the parser was called
    once for each call up to that one, in order, and not again. *)
Theorem first_failure_latched pre c post l :
  err l = None →
  Forall callParses pre →
  ¬ callParses c →
  runCalls (pre ++ c :: post) l =
    (fst (runCalls (pre ++ [c]) l), map callEntry (pre ++ [c])) ∧
  err (fst (runCalls (pre ++ c :: post) l)) = Some (callError c).
Proof.
  intros He Hpre Hc.
  destruct (runCalls_parses pre l He Hpre) as [Herr Htr].
  assert (err (fst (applyCall c (fst (runCalls pre l)))) = Some (callError c))
    as Hlatch.
  { rewrite (applyCall_unlatched c _ Herr). unfold callParses in Hc.
    destruct (snd (ParseFile _ _)); [reflexivity|done]. }
  assert (runCalls (pre ++ [c]) l =
          (fst (applyCall c (fst (runCalls pre l))), map callEntry (pre ++ [c])))
    as Hone.
  { rewrite runCalls_app, Htr, map_app. simpl. unfold tbind. simpl.
    now rewrite (applyCall_unlatched c _ Herr). }
  replace (pre ++ c :: post) with ((pre ++ [c]) ++ post)
    by now rewrite <- app_assoc.
  rewrite runCalls_app, Hone. simpl.
  rewrite (runCalls_latched post _ _ Hlatch). simpl.
  now rewrite app_nil_r.
Qed.

(** ** More on the two loops of [Complete] *)

Lemma addFiles_app bi kvs1 kvs2 :
  addFiles bi (kvs1 ++ kvs2) =
  match addFiles bi kvs1 with
  | inl e => inl e
  | inr bi' => addFiles bi' kvs2
  end.
Proof.
  revert bi. induction kvs1 as [|[fname f] kvs1 IH]; intros bi; [reflexivity|].
  simpl. destruct (AddSyntax bi f); auto.
Qed.

(** X5. When no error is latched and the engine accepted the files,
    [Complete] returns a nil instance with a nil error exactly when
    [cue.Build] made no instance. *)
Theorem complete_nil_instance l (kvs : list (string * File))
    (bi : BuildInstance) :
  err l = None →
  addFiles NewInstance kvs = inr bi →
  (CompleteIn kvs l = inr None ↔ cueBuild [bi] = []).
Proof.
  intros He Hadd. unfold CompleteIn. rewrite He, Hadd. split.
  - intros Hval. destruct (validateAll_inr _ _ _ Hval) as [_ Hlast].
    destruct (last (cueBuild [bi])) eqn:Hl; [discriminate|].
    now apply last_None in Hl.
  - now intros ->.
Qed.

(** X6. When no error is latched, the first file in the order of the range
    that [AddSyntax] refuses decides the result: [Complete] returns the
    engine's error under a message with the name of that file, whatever
    files come after it and whatever the validation would say. *)
Theorem addSyntax_failure_first l (pre post : list (string * File))
    (fname : string) (f : File) (bi : BuildInstance) (x : Err) :
  err l = None →
  addFiles NewInstance pre = inr bi →
  AddSyntax bi f = inl x →
  CompleteIn (pre ++ (fname, f) :: post) l =
    inl (WithMessage (Foreign x) ("loader AddSyntax " +:+ fname)).
Proof.
  intros He Hpre Hf. unfold CompleteIn.
  rewrite He, addFiles_app, Hpre. simpl. now rewrite Hf.
Qed.

End LoaderMore.

(** * More properties of the builder *)

Section BuilderMore.

Context `{Packages}.

Implicit Types (b : builder) (wl : Workload) (e : error).
Implicit Types
  (body : Workload → error + (Component * ApplicationConfigurationComponent)).

(** ** Loops as maps *)

Lemma mapBody_inl body wls e :
  mapBody body wls = inl e ↔
  ∃ pre wl post,
    wls = pre ++ wl :: post ∧
    Forall (fun w => ∃ r, body w = inr r) pre ∧
    body wl = inl e.
Proof.
  split.
  - induction wls as [|w wls IH]; simpl; [discriminate|].
    destruct (body w) as [e'|r] eqn:Hw.
    + intros [= <-]. exists [], w, wls. auto.
    + destruct (mapBody body wls) as [e'|rs]; [|discriminate].
      intros [= <-].
      destruct (IH eq_refl) as (pre & wl & post & -> & Hpre & Hwl).
      exists (w :: pre), wl, post. split; [reflexivity|].
      split; [constructor; eauto|exact Hwl].
  - intros (pre & wl & post & -> & Hpre & Hwl).
    induction Hpre as [|p pre [r Hr] _ IH]; simpl.
    + now rewrite Hwl.
    + now rewrite Hr, IH.
Qed.

Lemma mapBody_inr body wls rs :
  mapBody body wls = inr rs ↔ Forall2 (fun wl r => body wl = inr r) wls rs.
Proof.
  revert rs. induction wls as [|w wls IH]; intros rs; simpl.
  - split; [intros [= <-]; constructor|]. now inversion 1.
  - destruct (body w) as [e'|r] eqn:Hw.
    + split; [discriminate|]. inversion 1; congruence.
    + destruct (mapBody body wls) as [e'|rs'].
      * split; [discriminate|]. inversion 1 as [|? r' ? rs'' Hr Hrs]; subst.
        now apply IH in Hrs.
      * split.
        -- intros [= <-]. constructor; [exact Hw|]. now apply IH.
        -- inversion 1 as [|? r' ? rs'' Hr Hrs]; subst.
           apply IH in Hrs. congruence.
Qed.

Lemma mapBody_app body wls1 wls2 :
  mapBody body (wls1 ++ wls2) =
  match mapBody body wls1 with
  | inl e => inl e
  | inr rs1 =>
      match mapBody body wls2 with
      | inl e => inl e
      | inr rs2 => inr (rs1 ++ rs2)
      end
  end.
Proof.
  induction wls1 as [|w wls1 IH]; simpl.
  - now destruct (mapBody body wls2).
  - destruct (body w); [reflexivity|]. rewrite IH.
    destruct (mapBody body wls1); [reflexivity|].
    now destruct (mapBody body wls2).
Qed.

Lemma mapBody_ext body1 body2 wls :
  (∀ wl, body1 wl = body2 wl) → mapBody body1 wls = mapBody body2 wls.
Proof.
  intros Hext. induction wls as [|w wls IH]; [reflexivity|].
  simpl. now rewrite Hext, IH.
Qed.

Lemma contextLoop_mapBody b ns wls ac comps :
  contextLoop b ns wls ac comps =
  finish ac comps (mapBody (renderWorkload b ns) wls).
Proof.
  revert ac comps. induction wls as [|wl wls IH]; intros ac comps.
  - simpl. rewrite !app_nil_r. now destruct ac.
  - cbn [contextLoop mapBody].
    destruct (renderWorkload b ns wl) as [e|[comp acComp]]; [reflexivity|].
    rewrite IH. destruct (mapBody (renderWorkload b ns) wls); [reflexivity|].
    simpl. now rewrite <- !app_assoc.
Qed.

Lemma completeLoop_mapBody b ns wls ac comps :
  completeLoop b ns wls ac comps =
  finish ac comps (mapBody (evalStateless b ns) wls).
Proof.
  revert ac comps. induction wls as [|wl wls IH]; intros ac comps.
  - simpl. rewrite !app_nil_r. now destruct ac.
  - cbn [completeLoop mapBody]. unfold evalStateless.
    destruct (wlEval wl _) as [e|component]; [reflexivity|].
    destruct (evalTraits _ _ _) as [e|comp]; [reflexivity|].
    rewrite IH. fold (evalStateless b ns).
    destruct (mapBody (evalStateless b ns) wls); [reflexivity|].
    simpl. now rewrite <- !app_assoc.
Qed.

(** ** Where the errors of [CompleteWithContext] come from *)

Lemma evalTraitsContext_inl trs c e :
  evalTraitsContext trs c = inl e ↔
  ∃ pre tr post c',
    trs = pre ++ tr :: post ∧
    evalTraitsContext pre c = inr c' ∧
    trEvalContext tr c' = inl e.
Proof.
  split.
  - revert c. induction trs as [|t trs IH]; intros c; simpl; [discriminate|].
    destruct (trEvalContext t c) as [e'|c1] eqn:Ht.
    + intros [= <-]. exists [], t, trs, c. auto.
    + intros Hrest.
      destruct (IH _ Hrest) as (pre & tr & post & c' & -> & Hpre & Htr).
      exists (t :: pre), tr, post, c'. simpl. now rewrite Ht.
  - intros (pre & tr & post & c' & -> & Hpre & Htr).
    rewrite evalTraitsContext_app, Hpre. simpl. now rewrite Htr.
Qed.

Lemma assistTraits_inl assists acc e :
  assistTraits assists acc = inl e ↔
  ∃ pre a post,
    assists = pre ++ a :: post ∧
    Forall (fun i => ∃ o, instObject i = inr o) pre ∧
    instObject a = inl e.
Proof.
  split.
  - revert acc. induction assists as [|i assists IH]; intros acc; simpl;
      [discriminate|].
    destruct (instObject i) as [e'|o] eqn:Hi.
    + intros [= <-]. exists [], i, assists. auto.
    + intros Hrest.
      destruct (IH _ Hrest) as (pre & a & post & -> & Hpre & Ha).
      exists (i :: pre), a, post. split; [reflexivity|].
      split; [constructor; eauto|exact Ha].
  - intros (pre & a & post & -> & Hpre & Ha). revert acc.
    induction Hpre as [|i pre [o Ho] _ IH]; intros acc; simpl.
    + now rewrite Ha.
    + rewrite Ho. apply IH.
Qed.

(** X7. [generateOAM] fails exactly when the base object of the context, or
    else the first auxiliary in order that does, fails to convert, and it
    returns the error of that conversion as it is. *)
Theorem generateOAM_error_iff (pCtx : ProcessContext) e :
  generateOAM pCtx = inl e ↔
  instObject (fst (Output pCtx)) = inl e ∨
  ((∃ o, instObject (fst (Output pCtx)) = inr o) ∧
   ∃ pre a post,
     snd (Output pCtx) = pre ++ a :: post ∧
     Forall (fun i => ∃ o, instObject i = inr o) pre ∧
     instObject a = inl e).
Proof.
  unfold generateOAM. destruct (Output pCtx) as [base assists]. simpl.
  destruct (instObject base) as [e'|o].
  - split; [intros [= <-]; now left|].
    intros [[= <-]|[[o Ho] _]]; [reflexivity|discriminate].
  - destruct (assistTraits assists []) as [e'|ts] eqn:Hts.
    + split.
      * intros [= <-]. right. split; [eauto|]. now apply assistTraits_inl in Hts.
      * intros [Habs|[_ Hex]]; [discriminate|].
        apply (assistTraits_inl assists []) in Hex. congruence.
    + split; [discriminate|].
      intros [Habs|[_ Hex]]; [discriminate|].
      apply (assistTraits_inl assists []) in Hex. congruence.
Qed.

Lemma renderWorkload_inl b ns wl e :
  renderWorkload b ns wl = inl e ↔ workloadFailsWith wl e.
Proof.
  unfold renderWorkload, workloadFailsWith.
  destruct (wlEvalContext wl (NewContext (wlName wl))) as [e0|c0].
  - split; [intros [= <-]; now left|].
    intros [[= <-]|[(c & pre & tr & post & c' & Habs & _)|(c & c' & Habs & _)]];
      [reflexivity|discriminate..].
  - destruct (evalTraitsContext (wlTraits wl) c0) as [e1|c1] eqn:Htrs.
    + split.
      * intros [= <-]. right; left.
        apply evalTraitsContext_inl in Htrs
          as (pre & tr & post & c' & Heq & Hpre & Htr).
        exists c0, pre, tr, post, c'. auto.
      * intros [Habs|[(c & pre & tr & post & c' & [= <-] & Heq & Hpre & Htr)
                     |(c & c' & [= <-] & Habs & _)]];
          [discriminate| |congruence].
        assert (evalTraitsContext (wlTraits wl) c0 = inl e) as Hfail
            by (apply evalTraitsContext_inl; eauto 8).
        congruence.
    + destruct (generateOAM c1) as [e2|[comp acComp]] eqn:Hgen.
      * split.
        -- intros [= <-]. right; right. exists c0, c1. auto.
        -- intros [Habs|[(c & pre & tr & post & c' & [= <-] & Heq & Hpre & Htr)
                        |(c & c' & [= <-] & Hc1 & Hgen')]];
             [discriminate| |congruence].
           assert (evalTraitsContext (wlTraits wl) c0 = inl e) as Hfail
               by (apply evalTraitsContext_inl; eauto 8).
           congruence.
      * split; [discriminate|].
        intros [Habs|[(c & pre & tr & post & c' & [= <-] & Heq & Hpre & Htr)
                     |(c & c' & [= <-] & Hc1 & Hgen')]];
          [discriminate| |congruence].
        assert (evalTraitsContext (wlTraits wl) c0 = inl e) as Hfail
            by (apply evalTraitsContext_inl; eauto 8).
        congruence.
Qed.

Lemma workloadFails_iff wl : workloadFails wl ↔ ∃ e, workloadFailsWith wl e.
Proof.
  unfold workloadFails, workloadFailsWith. split.
  - intros [[e He]|[(c & pre & tr & post & c' & e & Hf)|(c & c' & e & Hf)]];
      exists e; eauto 10.
  - intros [e [He|[(c & pre & tr & post & c' & Hf)|(c & c' & Hf)]]]; eauto 12.
Qed.

Lemma renderWorkload_succeeds b ns wl :
  ¬ workloadFails wl ↔ ∃ r, renderWorkload b ns wl = inr r.
Proof.
  rewrite workloadFails_iff. split.
  - intros Hno. destruct (renderWorkload b ns wl) as [e|r] eqn:Hr; [|eauto].
    exfalso. apply Hno. exists e. now apply (renderWorkload_inl b ns).
  - intros [r Hr] [e He]. apply (renderWorkload_inl b ns) in He. congruence.
Qed.

(** X8. [CompleteWithContext] returns an error exactly when some workload
    fails; the error it returns is the one of the first workload, in the
    order of the application, that fails, as the collaborator returned it,
    whatever the workloads after that one would do. *)
Theorem build_error_iff b ns e :
  CompleteWithContext b ns = (None, None, Some e) ↔
  ∃ pre wl post,
    Services (app b) = pre ++ wl :: post ∧
    Forall (fun w => ¬ workloadFails w) pre ∧
    workloadFailsWith wl e.
Proof.
  unfold CompleteWithContext. rewrite contextLoop_mapBody.
  assert (∀ pre, Forall (fun w => ¬ workloadFails w) pre ↔
                 Forall (fun w => ∃ r, renderWorkload b ns w = inr r) pre)
    as Hpre.
  { intros pre. apply Forall_iff. intros w. apply renderWorkload_succeeds. }
  split.
  - destruct (mapBody (renderWorkload b ns) (Services (app b))) as [e'|rs] eqn:Hm;
      [|discriminate].
    intros [= <-]. apply mapBody_inl in Hm as (pre & wl & post & Heq & Hok & Hwl).
    exists pre, wl, post. split; [exact Heq|].
    split; [now apply Hpre|now apply (renderWorkload_inl b ns)].
  - intros (pre & wl & post & Heq & Hok & Hwl).
    assert (mapBody (renderWorkload b ns) (Services (app b)) = inl e) as ->;
      [|reflexivity].
    apply mapBody_inl. exists pre, wl, post. split; [exact Heq|].
    split; [now apply Hpre|now apply renderWorkload_inl].
Qed.

(** X9. [Build] returns the two graphs exactly when no workload of the
    application fails. *)
Theorem build_success_iff ns (a : Appfile) :
  (∃ ac comps, Build ns a = (Some ac, Some comps, None)) ↔
  Forall (fun wl => ¬ workloadFails wl) (Services a).
Proof.
  unfold Build, CompleteWithContext. rewrite contextLoop_mapBody. cbn [app].
  set (b := {| app := a |}). split.
  - intros (ac & comps & Hres).
    destruct (mapBody (renderWorkload b ns) (Services a)) as [e|rs] eqn:Hm;
      [discriminate|].
    apply mapBody_inr in Hm. clear Hres.
    induction Hm as [|wl r wls rs Hr _ IH]; constructor; [|exact IH].
    apply (renderWorkload_succeeds b ns). eauto.
  - intros Hall.
    destruct (mapBody (renderWorkload b ns) (Services a)) as [e|rs] eqn:Hm;
      [|simpl; eauto].
    exfalso. apply mapBody_inl in Hm as (pre & wl & post & Heq & _ & Hwl).
    rewrite Heq in Hall. apply Forall_app in Hall as [_ Hall].
    apply Forall_cons in Hall as [Hno _]. apply Hno.
    apply workloadFails_iff. exists e. now apply (renderWorkload_inl b ns).
Qed.

(** ** What the namespace and the list of workloads do to the result *)

Lemma renderWorkload_namespace b ns ns' wl :
  renderWorkload b ns' wl =
  match renderWorkload b ns wl with
  | inl e => inl e
  | inr (comp, acComp) => inr (setNamespace comp ns', acComp)
  end.
Proof.
  unfold renderWorkload.
  destruct (wlEvalContext wl _) as [|c0]; [reflexivity|].
  destruct (evalTraitsContext _ c0) as [|c1]; [reflexivity|].
  now destruct (generateOAM c1) as [|[comp acComp]].
Qed.

Lemma evalStateless_namespace b ns ns' wl :
  evalStateless b ns' wl =
  match evalStateless b ns wl with
  | inl e => inl e
  | inr (comp, acComp) => inr (setNamespace comp ns', acComp)
  end.
Proof.
  unfold evalStateless.
  destruct (wlEval wl _) as [|component]; [reflexivity|].
  now destruct (evalTraits _ _ _).
Qed.

Lemma mapBody_namespace body body' (ns' : string) wls :
  (∀ wl, body' wl =
         match body wl with
         | inl e => inl e
         | inr (comp, acComp) => inr (setNamespace comp ns', acComp)
         end) →
  mapBody body' wls =
  match mapBody body wls with
  | inl e => inl e
  | inr rs => inr (map (fun r => (setNamespace (fst r) ns', snd r)) rs)
  end.
Proof.
  intros Hb. induction wls as [|wl wls IH]; [reflexivity|].
  simpl. rewrite Hb. destruct (body wl) as [|[comp acComp]]; [reflexivity|].
  rewrite IH. now destruct (mapBody body wls).
Qed.

(** X10. The namespace has no part in the evaluation: with another
    namespace, both [CompleteWithContext] and [Complete] return the same
    error, or the same configuration and components with the other namespace
    written on them. *)
Theorem namespace_only_relabels b (ns ns' : string) :
  CompleteWithContext b ns' = withNamespace ns' (CompleteWithContext b ns) ∧
  Complete b ns' = withNamespace ns' (Complete b ns).
Proof.
  unfold CompleteWithContext, Complete.
  rewrite !contextLoop_mapBody, !completeLoop_mapBody.
  rewrite (mapBody_namespace (renderWorkload b ns) (renderWorkload b ns') ns')
    by apply renderWorkload_namespace.
  rewrite (mapBody_namespace (evalStateless b ns) (evalStateless b ns') ns')
    by apply evalStateless_namespace.
  split.
  - destruct (mapBody (renderWorkload b ns) _) as [|rs]; [reflexivity|].
    simpl. rewrite !map_map. reflexivity.
  - destruct (mapBody (evalStateless b ns) _) as [|rs]; [reflexivity|].
    simpl. rewrite !map_map. reflexivity.
Qed.

Lemma renderWorkload_name b b' ns wl :
  Name (app b) = Name (app b') →
  renderWorkload b ns wl = renderWorkload b' ns wl.
Proof. intros Hn. unfold renderWorkload. now rewrite Hn. Qed.

(** X11. The workloads are compiled one by one: [Build] on the workloads
    [wls1 ++ wls2] is the join of [Build] on [wls1] and [Build] on [wls2]
    under the same application name, that is, the first error, or else the
    components of both and the binding records of both, in that order. *)
Theorem build_append ns (name : string) (wls1 wls2 : list Workload) :
  Build ns {| Name := name; Services := wls1 ++ wls2 |} =
  joinResults (Build ns {| Name := name; Services := wls1 |})
              (Build ns {| Name := name; Services := wls2 |}).
Proof.
  unfold Build, CompleteWithContext. rewrite !contextLoop_mapBody. cbn [app Services].
  set (b := {| app := {| Name := name; Services := wls1 ++ wls2 |} |}).
  set (b1 := {| app := {| Name := name; Services := wls1 |} |}).
  set (b2 := {| app := {| Name := name; Services := wls2 |} |}).
  assert (mapBody (renderWorkload b1 ns) wls1 =
          mapBody (renderWorkload b ns) wls1) as ->
      by (apply mapBody_ext; intros wl; now apply renderWorkload_name).
  assert (mapBody (renderWorkload b2 ns) wls2 =
          mapBody (renderWorkload b ns) wls2) as ->
      by (apply mapBody_ext; intros wl; now apply renderWorkload_name).
  rewrite mapBody_app.
  destruct (mapBody (renderWorkload b ns) wls1) as [e1|rs1]; [reflexivity|].
  destruct (mapBody (renderWorkload b ns) wls2) as [e2|rs2]; [reflexivity|].
  simpl. now rewrite !map_app.
Qed.

Lemma mapBody_length body wls rs :
  mapBody body wls = inr rs → length rs = length wls.
Proof.
  intros Hm. apply mapBody_inr in Hm. symmetry. exact (Forall2_length _ _ _ Hm).
Qed.

(** X12. After a successful [Build], the configuration has the name of the
    application, the namespace given, the configuration kind and the single
    label [application.oam.dev] with the name of the application; and there
    are as many binding records, and as many components, as workloads. *)
Theorem appconfig_metadata ns (a : Appfile) ac comps :
  Build ns a = (Some ac, Some comps, None) →
  acName ac = Name a ∧
  acNamespace ac = ns ∧
  acGVK ac = ApplicationConfigurationGroupVersionKind ∧
  acLabels ac = Some {[ "application.oam.dev" := Name a ]} ∧
  length (acComponents ac) = length (Services a) ∧
  length comps = length (Services a).
Proof.
  unfold Build, CompleteWithContext. rewrite contextLoop_mapBody. cbn [app].
  destruct (mapBody _ (Services a)) as [e|rs] eqn:Hm; [discriminate|].
  intros [= <- <-]. apply mapBody_length in Hm.
  cbn [acName acNamespace acGVK acLabels acComponents newAppConfig app
       app_nil_l].
  split; [reflexivity|]. split; [reflexivity|]. split; [reflexivity|].
  split; [unfold setLabel; now rewrite insert_empty|].
  now rewrite !length_map.
Qed.

(** X13. After a successful [Build], the component of a workload carries
    the object of the base of the context as it is after the workload and
    all its traits were evaluated, with the application label as its only
    label; and the traits of its binding record are, entry by entry and in
    order, the objects of the auxiliaries of that context. *)
Theorem rendered_bodies ns (a : Appfile) ac comps :
  Build ns a = (Some ac, Some comps, None) →
  Forall2
    (fun wl c =>
       ∃ c0 c1 o,
         wlEvalContext wl (NewContext (wlName wl)) = inr c0 ∧
         evalTraitsContext (wlTraits wl) c0 = inr c1 ∧
         instObject (fst (Output c1)) = inr o ∧
         compWorkload c = Some o ∧
         compLabels c = Some {[ "application.oam.dev" := Name a ]} ∧
         compGVK c = ComponentGroupVersionKind)
    (Services a) comps ∧
  Forall2
    (fun wl r =>
       ∃ c0 c1,
         wlEvalContext wl (NewContext (wlName wl)) = inr c0 ∧
         evalTraitsContext (wlTraits wl) c0 = inr c1 ∧
         Forall2
           (fun i t => ∃ o, instObject i = inr o ∧ traitObject t = Some o)
           (snd (Output c1)) (Traits r))
    (Services a) (acComponents ac).
Proof.
  unfold Build, CompleteWithContext. rewrite contextLoop_mapBody. cbn [app].
  set (b := {| app := a |}).
  destruct (mapBody _ (Services a)) as [e|rs] eqn:Hm; [discriminate|].
  intros [= <- <-]. cbn [acComponents newAppConfig app_nil_l].
  apply mapBody_inr in Hm. split.
  - induction Hm as [|wl [comp acComp] wls rs Hr _ IH]; [constructor|].
    simpl. constructor; [|exact IH].
    destruct (renderWorkload_inr _ _ _ _ _ Hr)
      as (c0 & c1 & o & Hc0 & Hc1 & Ho & _ & -> & _).
    exists c0, c1, o. cbn [compWorkload compLabels compGVK app Name].
    rewrite insert_empty. auto 10.
  - induction Hm as [|wl [comp acComp] wls rs Hr _ IH]; [constructor|].
    simpl. constructor; [|exact IH].
    destruct (renderWorkload_inr _ _ _ _ _ Hr)
      as (c0 & c1 & o & Hc0 & Hc1 & _ & Hts & _ & _).
    exists c0, c1. auto.
Qed.

(** ** The stateless strategy *)

Lemma evalTraits_inl (compCtx : Value) trs comp e :
  evalTraits compCtx trs comp = inl e ↔
  ∃ pre tr post,
    trs = pre ++ tr :: post ∧
    Forall (fun t => ∃ ts, trEval t (fst (newLoader compCtx)) = inr ts) pre ∧
    trEval tr (fst (newLoader compCtx)) = inl e.
Proof.
  split.
  - revert comp. induction trs as [|t trs IH]; intros comp;
      cbn [evalTraits]; [discriminate|].
    destruct (trEval t _) as [e'|ts] eqn:Ht.
    + intros [= <-]. exists [], t, trs. auto.
    + intros Hrest.
      destruct (IH _ Hrest) as (pre & tr & post & -> & Hpre & Htr).
      exists (t :: pre), tr, post. split; [reflexivity|].
      split; [constructor; eauto|exact Htr].
  - intros (pre & tr & post & -> & Hpre & Htr). revert comp.
    induction Hpre as [|t pre [ts Hts] _ IH]; intros comp;
      cbn [evalTraits Datatypes.app].
    + now rewrite Htr.
    + rewrite Hts. apply IH.
Qed.

Lemma evalTraits_inr (compCtx : Value) trs comp comp' :
  evalTraits compCtx trs comp = inr comp' →
  ∃ tss,
    Forall2 (fun t ts => trEval t (fst (newLoader compCtx)) = inr ts) trs tss ∧
    ComponentName comp' = ComponentName comp ∧
    Traits comp' = Traits comp ++ concat tss.
Proof.
  revert comp. induction trs as [|t trs IH]; intros comp; cbn [evalTraits].
  - intros [= <-]. exists []. simpl. rewrite app_nil_r. repeat split.
    constructor.
  - destruct (trEval t _) as [e'|ts] eqn:Ht; [discriminate|].
    intros Hrest. destruct (IH _ Hrest) as (tss & Htss & Hname & Htraits).
    exists (ts :: tss). split; [now constructor|]. split; [exact Hname|].
    rewrite Htraits. simpl. now rewrite app_assoc.
Qed.

Lemma evalStateless_inl b ns wl e :
  evalStateless b ns wl = inl e ↔ statelessFailsWith wl e.
Proof.
  unfold evalStateless, statelessFailsWith, evalLoader.
  destruct (wlEval wl _) as [e0|component].
  - split; [intros [= <-]; now left|].
    intros [[= <-]|[[c Habs] _]]; [reflexivity|discriminate].
  - destruct (evalTraits _ _ _) as [e1|comp] eqn:Htr.
    + split.
      * intros [= <-]. right. split; [eauto|]. now apply evalTraits_inl in Htr.
      * intros [Habs|[_ Hex]]; [discriminate|].
        apply (evalTraits_inl _ _ {| ComponentName := wlName wl; Traits := [] |})
          in Hex. congruence.
    + split; [discriminate|].
      intros [Habs|[_ Hex]]; [discriminate|].
      apply (evalTraits_inl _ _ {| ComponentName := wlName wl; Traits := [] |})
        in Hex. congruence.
Qed.

(** X14. [Complete] returns an error, with a nil configuration and a nil
    component list, exactly when the [Eval] of some workload or of one of
    its traits fails; the error is the one of the first workload that fails,
    in the order of the application, as [Eval] returned it. *)
Theorem stateless_error_iff b ns e :
  Complete b ns = (None, None, Some e) ↔
  ∃ pre wl post,
    Services (app b) = pre ++ wl :: post ∧
    Forall (fun w => ∀ e', ¬ statelessFailsWith w e') pre ∧
    statelessFailsWith wl e.
Proof.
  unfold Complete. rewrite completeLoop_mapBody.
  assert (∀ pre, Forall (fun w => ∀ e', ¬ statelessFailsWith w e') pre ↔
                 Forall (fun w => ∃ r, evalStateless b ns w = inr r) pre)
    as Hpre.
  { intros pre. apply Forall_iff. intros w. split.
    - intros Hno. destruct (evalStateless b ns w) as [e'|r] eqn:Hr; [|eauto].
      exfalso. apply (Hno e'). now apply (evalStateless_inl b ns).
    - intros [r Hr] e' He'. apply (evalStateless_inl b ns) in He'. congruence. }
  split.
  - destruct (mapBody (evalStateless b ns) (Services (app b))) as [e'|rs] eqn:Hm;
      [|discriminate].
    intros [= <-]. apply mapBody_inl in Hm as (pre & wl & post & Heq & Hok & Hwl).
    exists pre, wl, post. split; [exact Heq|].
    split; [now apply Hpre|now apply (evalStateless_inl b ns)].
  - intros (pre & wl & post & Heq & Hok & Hwl).
    assert (mapBody (evalStateless b ns) (Services (app b)) = inl e) as ->;
      [|reflexivity].
    apply mapBody_inl. exists pre, wl, post. split; [exact Heq|].
    split; [now apply Hpre|now apply evalStateless_inl].
Qed.

(** X15. After a successful [Complete], the component of a workload is the
    one that [Eval] returned, with the same object and the same labels but
    for the name, the namespace, the component kind and the label
    [application.oam.dev], which holds the name of the application whatever
    it held; and the traits of its binding record are what [Eval] returned
    for its traits, one trait after the other in the order of declaration. *)
Theorem stateless_content b ns ac comps :
  Complete b ns = (Some ac, Some comps, None) →
  Forall2
    (fun wl c =>
       ∃ component,
         wlEval wl (evalLoader wl) = inr component ∧
         compName c = wlName wl ∧
         compNamespace c = ns ∧
         compGVK c = ComponentGroupVersionKind ∧
         compWorkload c = compWorkload component ∧
         labelOf c "application.oam.dev" = Some (Name (app b)) ∧
         ∀ k, k ≠ "application.oam.dev" → labelOf c k = labelOf component k)
    (Services (app b)) comps ∧
  Forall2
    (fun wl r =>
       ComponentName r = wlName wl ∧
       ∃ tss,
         Forall2 (fun tr ts => trEval tr (evalLoader wl) = inr ts)
           (wlTraits wl) tss ∧
         Traits r = concat tss)
    (Services (app b)) (acComponents ac).
Proof.
  unfold Complete. rewrite completeLoop_mapBody.
  destruct (mapBody _ (Services (app b))) as [e|rs] eqn:Hm; [discriminate|].
  intros [= <- <-]. cbn [acComponents newAppConfig app_nil_l].
  apply mapBody_inr in Hm. split.
  - induction Hm as [|wl [comp acComp] wls rs Hr _ IH]; [constructor|].
    simpl. constructor; [|exact IH]. clear IH.
    unfold evalStateless in Hr. fold (evalLoader wl) in Hr.
    destruct (wlEval wl (evalLoader wl)) as [|component]; [discriminate|].
    destruct (evalTraits _ _ _) as [|comp']; [discriminate|].
    injection Hr as <- <-. exists component.
    split; [reflexivity|]. repeat (split; [reflexivity|]).
    unfold labelOf, setLabel. simpl. split.
    + apply lookup_insert_eq.
    + intros k Hk.
      rewrite lookup_insert_ne by (unfold OamApplicationLabel; congruence).
      destruct (compLabels component); [reflexivity|apply lookup_empty].
  - induction Hm as [|wl [comp acComp] wls rs Hr _ IH]; [constructor|].
    simpl. constructor; [|exact IH]. clear IH.
    unfold evalStateless in Hr. fold (evalLoader wl) in Hr.
    destruct (wlEval wl (evalLoader wl)) as [|component]; [discriminate|].
    destruct (evalTraits _ _ _) as [|comp'] eqn:Htr; [discriminate|].
    injection Hr as <- <-.
    destruct (evalTraits_inr _ _ _ _ Htr) as (tss & Htss & Hname & Htraits).
    split; [exact Hname|]. exists tss. split; [exact Htss|exact Htraits].
Qed.

End BuilderMore.

(** * The further properties on the small engine and the small application *)

Section MoreExamples.

Local Existing Instance toyLibraries.
Local Existing Instance toyPackages.

(** Witness of X2: two templates and a parameter fragment; the key [-]
    holds the second template. *)
Lemma last_source_wins_witness :
  files
    (fst (runCalls
            [CallWithTemplate "output: {replicas: 1}";
             CallWithParams (Some "{n: 3}");
             CallWithTemplate "output: {replicas: parameter.n}"]
            frontLoader)) !! "-" =
  Some (fst (ParseFile "-" "output: {replicas: parameter.n}")).
Proof.
  apply (@last_source_wins toyLibraries
           [@CallWithTemplate toyLibraries "output: {replicas: 1}";
            @CallWithParams toyLibraries (Some "{n: 3}");
            @CallWithTemplate toyLibraries "output: {replicas: parameter.n}"]
           frontLoader "-").
  vm_compute. reflexivity.
Defined.

(** Witness of X3: a template and a parameter fragment, in either order. *)
Lemma calls_commute_witness :
  fst (WithParams (Some "{n: 3}")
         (fst (WithTemplate "output: {replicas: parameter.n}" frontLoader))) =
  fst (WithTemplate "output: {replicas: parameter.n}"
         (fst (WithParams (Some "{n: 3}") frontLoader))).
Proof.
  apply (@calls_commute toyLibraries
           (@CallWithTemplate toyLibraries "output: {replicas: parameter.n}")
           (@CallWithParams toyLibraries (Some "{n: 3}")) frontLoader).
  - reflexivity.
  - discriminate.
  - vm_compute. reflexivity.
  - vm_compute. reflexivity.
Defined.

(** Witness of X4: the template does not parse; the context after it is
    not parsed. *)
Lemma first_failure_latched_witness :
  snd (runCalls
         [CallWithParams (Some "{n: 3}"); CallWithTemplate "output: ";
          CallWithContext (Some "{name: back}")]
         frontLoader) =
    [("parameter", "parameter: {n: 3}"); ("-", "output: ")] ∧
  err (fst (runCalls
              [CallWithParams (Some "{n: 3}"); CallWithTemplate "output: ";
               CallWithContext (Some "{name: back}")]
              frontLoader)) =
    Some (Errorf "loader parse template error").
Proof.
  destruct (@first_failure_latched toyLibraries
              [@CallWithParams toyLibraries (Some "{n: 3}")]
              (@CallWithTemplate toyLibraries "output: ")
              [@CallWithContext toyLibraries (Some "{name: back}")]
              frontLoader)
    as [Hrun Herr].
  - reflexivity.
  - constructor; [|constructor]. vm_compute. reflexivity.
  - vm_compute. discriminate.
  - split; [|exact Herr].
    change ([@CallWithParams toyLibraries (Some "{n: 3}");
             @CallWithTemplate toyLibraries "output: ";
             @CallWithContext toyLibraries (Some "{name: back}")])
      with ([@CallWithParams toyLibraries (Some "{n: 3}")] ++
            @CallWithTemplate toyLibraries "output: " ::
            [@CallWithContext toyLibraries (Some "{name: back}")]).
    rewrite Hrun. reflexivity.
Defined.

(** Witness of X5: the small engine builds one instance, and [Complete]
    does not return a nil instance with a nil error. *)
Lemma complete_nil_instance_witness :
  CompleteIn (map_to_list (files unboundLoader)) unboundLoader = inr None ↔
  cueBuild
    [mkToyBuild true ""
       [mkToyFile "" "context: {name: front}";
        mkToyFile "" "output: {replicas: parameter.n}"]] = [].
Proof.
  apply (@complete_nil_instance toyLibraries).
  - reflexivity.
  - vm_compute. reflexivity.
Defined.

(** Witness of X6: the context file first, then the template with its
    package clause, which the engine refuses. *)
Lemma addSyntax_failure_first_witness :
  CompleteIn
    [("context", mkToyFile "" "context: {name: front}");
     ("-", mkToyFile "p" "output: {replicas: 1}")]
    packagedLoader =
  inl (WithMessage
         (Foreign "package name conflicts with previous package name")
         "loader AddSyntax -").
Proof.
  apply (@addSyntax_failure_first toyLibraries packagedLoader
           [("context", mkToyFile "" "context: {name: front}")] [] "-"
           (mkToyFile "p" "output: {replicas: 1}")
           (mkToyBuild true "" [mkToyFile "" "context: {name: front}"])).
  - reflexivity.
  - reflexivity.
  - reflexivity.
Defined.

(** Witness of X12. *)
Lemma appconfig_metadata_witness :
  ∃ ac comps,
    Build "prod" shop_ok = (Some ac, Some comps, None) ∧
    acName ac = "shop" ∧
    acNamespace ac = "prod" ∧
    acGVK ac = ApplicationConfigurationGroupVersionKind ∧
    acLabels ac = Some {[ "application.oam.dev" := "shop" ]} ∧
    length (acComponents ac) = 3 ∧
    length comps = 3.
Proof.
  eexists _, _. split; [reflexivity|].
  exact (appconfig_metadata "prod" shop_ok _ _ eq_refl).
Defined.

(** Witness of X13: the component of [B] carries the patched object. *)
Lemma rendered_bodies_witness :
  ∃ ac comps,
    Build "prod" shop_ok = (Some ac, Some comps, None) ∧
    map compWorkload comps =
      [Some "{name: A}"; Some "{name: B}!"; Some "{name: C}"] ∧
    Forall2
      (fun wl r =>
         ∃ c0 c1,
           wlEvalContext wl (NewContext (wlName wl)) = inr c0 ∧
           evalTraitsContext (wlTraits wl) c0 = inr c1 ∧
           Forall2
             (fun i t => ∃ o, instObject i = inr o ∧ traitObject t = Some o)
             (snd (Output c1)) (Traits r))
      (Services shop_ok) (acComponents ac).
Proof.
  eexists _, _. split; [reflexivity|]. split; [reflexivity|].
  exact (proj2 (rendered_bodies "prod" shop_ok _ _ eq_refl)).
Defined.

(** Witness of X15: the traits of [B] are those of [Eval], where the trait
    that patches renders nothing and leaves the object as it was. *)
Lemma stateless_content_witness :
  ∃ ac comps,
    Complete {| app := shop_ok |} "prod" = (Some ac, Some comps, None) ∧
    map compWorkload comps =
      [Some "{name: A}"; Some "{name: B}"; Some "{name: C}"] ∧
    Forall2
      (fun wl r =>
         ComponentName r = wlName wl ∧
         ∃ tss,
           Forall2 (fun tr ts => trEval tr (evalLoader wl) = inr ts)
             (wlTraits wl) tss ∧
           Traits r = concat tss)
      (Services shop_ok) (acComponents ac).
Proof.
  eexists _, _. split; [reflexivity|]. split; [reflexivity|].
  exact (proj2 (stateless_content {| app := shop_ok |} "prod" _ _ eq_refl)).
Defined.

End MoreExamples.
